(** * Paillier cryptosystem (package [paillier]): model and verification

    The Go package implements key generation, encryption with an explicit
    nonce, CRT decryption and the homomorphic operations of the Paillier
    cryptosystem on top of [math/big].  This development embeds the package
    function by function and proves the properties of its specification. *)

From Stdlib Require Import ZArith Zcong Lia List Bool.
From Stdlib Require Import Strings.Byte Strings.String.
From Stdlib Require Import Zmod.Zmod.
Import ListNotations.

#[local] Open Scope Z_scope.

(** ** Outcomes of a Go call

    A call returns a value, returns a non-nil [error], or panics.  The package
    has one error value of its own; the other errors come from the random
    source and are passed through unchanged. *)

Inductive error : Type :=
| ErrMessageTooLong
| ErrRandom (msg : string).

Inductive panic : Type :=
| DivisionByZero
| NilDereference.

Inductive outcome (A : Type) : Type :=
| Ok (a : A)
| Err (e : error)
| Panic (p : panic).

Arguments Ok {A} a.
Arguments Err {A} e.
Arguments Panic {A} p.

Definition bind {A B : Type} (c : outcome A) (k : A -> outcome B) : outcome B :=
  match c with
  | Ok a => k a
  | Err e => Err e
  | Panic p => Panic p
  end.

Declare Scope outcome_scope.
Notation "x <- c ;; k" := (bind c (fun x => k))
  (at level 61, c at next level, right associativity) : outcome_scope.
#[local] Open Scope outcome_scope.

(** Using a [*big.Int] that is nil as an operand panics. *)
Definition deref {A : Type} (ptr : option A) : outcome A :=
  match ptr with
  | Some a => Ok a
  | None => Panic NilDereference
  end.

(** ** The operations of [math/big] the package calls

    A non-nil [*big.Int] is an integer of [Z].  Operations that can hand back
    nil ([ModInverse], and [Exp] with a negative exponent) return an
    [option]. *)

Module big.

(** [x.Cmp(y)] is -1, 0 or +1. *)
Definition Cmp (x y : Z) : Z :=
  match x ?= y with
  | Lt => -1
  | Eq => 0
  | Gt => 1
  end.

(** [Mod] is the Euclidean modulus: the result lies in [0, |y|), and a zero
    [y] is a run-time panic. *)
Definition Mod (x y : Z) : outcome Z :=
  if y =? 0 then Panic DivisionByZero else Ok (x mod Z.abs y).

(** [Div] is the Euclidean quotient that goes with [Mod]. *)
Definition Div (x y : Z) : outcome Z :=
  if y =? 0 then Panic DivisionByZero
  else if 0 <? y then Ok (x / y)
  else Ok (- (x / - y)).

(** [ModInverse(g, n)]: the inverse of [g] in the ring of integers modulo
    [n], in [0, |n|), or nil when [g] and [n] are not relatively prime. *)
Definition ModInverse (g n : Z) : option Z :=
  if Z.gcd g n =? 1 then Some (Z.invmod g (Z.abs n)) else None.

(** [Exp(x, y, m)] is [x**y mod |m|]; with [m = 0] it is [x**y], or 1 when
    [y <= 0]; with a negative [y] and [m <> 0] it goes through the modular
    inverse of [x] and is nil when there is none. *)
Definition Exp (x y m : Z) : option Z :=
  if y <? 0 then
    if m =? 0 then Some 1
    else match ModInverse x m with
         | Some inv => Some ((inv ^ (- y)) mod Z.abs m)
         | None => None
         end
  else if m =? 0 then Some (x ^ y)
  else Some ((x ^ y) mod Z.abs m).

Definition byte_to_Z (b : byte) : Z := Z.of_N (Byte.to_N b).

Definition byte_of_Z (z : Z) : byte :=
  match Byte.of_N (Z.to_N z) with
  | Some b => b
  | None => x00
  end.

(** [SetBytes] reads a big-endian unsigned integer; the empty slice is 0. *)
Definition SetBytes (buf : list byte) : Z :=
  fold_left (fun acc b => acc * 256 + byte_to_Z b) buf 0.

(** The base-256 digits of a non-negative integer, least significant first,
    stopping at the last non-zero digit. *)
Fixpoint digits (fuel : nat) (x : Z) : list byte :=
  match fuel with
  | O => []
  | S fuel' =>
      if x =? 0 then []
      else byte_of_Z (x mod 256) :: digits fuel' (x / 256)
  end.

(** [Bytes] is the big-endian encoding of the absolute value, without
    leading zero bytes; 0 is the empty slice. *)
Definition Bytes (x : Z) : list byte :=
  rev (digits (S (Z.to_nat (Z.log2 (Z.abs x)))) (Z.abs x)).

End big.

(** ** The keys *)

Record PublicKey : Type := mkPublicKey {
  N1 : Z;        (* modulus *)
  G : Z;         (* N1+1 *)
  NSquared : Z
}.

(** [PrivateKey] embeds [PublicKey].  [Pinvq], [Hp] and [Hq] are what
    [ModInverse] returned, which may be nil. *)
Record PrivateKey : Type := mkPrivateKey {
  pub : PublicKey;
  P : Z;
  PP : Z;
  Pminusone : Z;
  Q : Z;
  QQ : Z;
  Qminusone : Z;
  Pinvq : option Z;
  Hp : option Z;
  Hq : option Z;
  N : Z
}.

Definition one : Z := 1.

(** ** Key generation *)

Definition l (u n : Z) : outcome Z :=
  big.Div (u - one) n.

Definition h (p pp n : Z) : outcome (option Z) :=
  gp <- big.Mod (one - n) pp ;;
  lp <- l gp p ;;
  Ok (big.ModInverse lp p).

(** [GenerateKey] asks [rand.Prime(random, bits/2)] twice, for [P] in a
    goroutine and for [Q] in the caller; the two results are the arguments
    here.  The error of the search for [Q] is looked at first. *)
Definition GenerateKey (primeP primeQ : outcome Z) : outcome PrivateKey :=
  q <- primeQ ;;
  p <- primeP ;;
  let n := p * q in
  let pp := p * p in
  let qq := q * q in
  let pinvq := big.ModInverse p q in
  hp <- h p pp n ;;
  hq <- h q qq n ;;
  Ok {| pub := {| N1 := n; NSquared := n * n; G := n + one |};
        P := p;
        PP := pp;
        Pminusone := p - one;
        Q := q;
        QQ := qq;
        Qminusone := q - one;
        Pinvq := pinvq;
        Hp := hp;
        Hq := hq;
        N := n |}.

(** What [rand.Prime(random, bits)] returns without error: [bits >= 2], and a
    prime of exactly [bits] bits whose two most significant bits are set.
    (A probable prime is taken to be a prime.) *)
Definition rand_Prime_returns (bits p : Z) : Prop :=
  2 <= bits /\ Z.prime p /\ 3 * 2 ^ (bits - 2) <= p < 2 ^ bits.

(** [priv] is a key [GenerateKey(random, bits)] returns, [p] and [q] being
    the primes the random source supplied. *)
Definition generated (bits p q : Z) (priv : PrivateKey) : Prop :=
  rand_Prime_returns (Z.quot bits 2) p /\
  rand_Prime_returns (Z.quot bits 2) q /\
  GenerateKey (Ok p) (Ok q) = Ok priv.

(** ** Encryption *)

Definition EncryptWithNonce (pubKey : PublicKey) (r : Z) (plainText : list byte)
  : outcome Z :=
  let m := big.SetBytes plainText in
  if big.Cmp (N1 pubKey) m <? 1 then Err ErrMessageTooLong
  else
    let n := N1 pubKey in
    a <- big.Mod (one + m * n) (NSquared pubKey) ;;
    b <- deref (big.Exp r n (NSquared pubKey)) ;;
    big.Mod (a * b) (NSquared pubKey).

(** [EncryptAndNonce] draws the nonce with [rand.Int(rand.Reader, N1)]; the
    result of that call is the argument [nonce]. *)
Definition EncryptAndNonce (pubKey : PublicKey) (nonce : outcome Z)
  (plainText : list byte) : outcome (list byte * Z) :=
  r <- nonce ;;
  c <- EncryptWithNonce pubKey r plainText ;;
  Ok (big.Bytes c, r).

Definition Encrypt (pubKey : PublicKey) (nonce : outcome Z)
  (plainText : list byte) : outcome (list byte) :=
  cr <- EncryptAndNonce pubKey nonce plainText ;;
  Ok (fst cr).

(** ** Decryption *)

Definition crt (mp mq : Z) (privKey : PrivateKey) : outcome Z :=
  pinvq <- deref (Pinvq privKey) ;;
  u <- big.Mod ((mq - mp) * pinvq) (Q privKey) ;;
  let m := mp + u * P privKey in
  big.Mod m (N privKey).

Definition Decrypt (privKey : PrivateKey) (cipherText : list byte)
  : outcome (list byte) :=
  let c := big.SetBytes cipherText in
  if big.Cmp (NSquared (pub privKey)) c <? 1 then Err ErrMessageTooLong
  else
    cp <- deref (big.Exp c (Pminusone privKey) (PP privKey)) ;;
    lp <- l cp (P privKey) ;;
    hp <- deref (Hp privKey) ;;
    mp <- big.Mod (lp * hp) (P privKey) ;;
    cq <- deref (big.Exp c (Qminusone privKey) (QQ privKey)) ;;
    lq <- l cq (Q privKey) ;;
    hq <- deref (Hq privKey) ;;
    let mqq := lq * hq in
    mq <- big.Mod mqq (Q privKey) ;;
    m <- crt mp mq privKey ;;
    Ok (big.Bytes m).

(** ** Homomorphic operations *)

Definition AddCipher (pubKey : PublicKey) (cipher1 cipher2 : list byte)
  : outcome (list byte) :=
  let x := big.SetBytes cipher1 in
  let y := big.SetBytes cipher2 in
  z <- big.Mod (x * y) (NSquared pubKey) ;;
  Ok (big.Bytes z).

Definition Add (pubKey : PublicKey) (cipher constant : list byte)
  : outcome (list byte) :=
  let c := big.SetBytes cipher in
  let x := big.SetBytes constant in
  g <- deref (big.Exp (G pubKey) x (NSquared pubKey)) ;;
  z <- big.Mod (c * g) (NSquared pubKey) ;;
  Ok (big.Bytes z).

Definition Mul (pubKey : PublicKey) (cipher constant : list byte)
  : outcome (list byte) :=
  let c := big.SetBytes cipher in
  let x := big.SetBytes constant in
  z <- deref (big.Exp c x (NSquared pubKey)) ;;
  Ok (big.Bytes z).

(** ** Notions the statements use *)

(** The value of a digit list that starts with the least significant
    digit. *)
Definition value (ds : list byte) : Z :=
  fold_right (fun b acc => acc * 256 + big.byte_to_Z b) 0 ds.

(** [encrypts n c m s]: modulo [n * n], [c] is the encryption of [m] under
    the nonce [s]. *)
Definition encrypts (n c m s : Z) : Prop :=
  c mod (n * n) = ((1 + m * n) * s ^ n) mod (n * n).

(** A computation that never returns an [error] (it returns a value or
    panics). *)
Definition no_error {A : Type} (c : outcome A) : Prop :=
  forall e, c <> Err e.

(** Trial division, to decide the primality of the small primes of the
    examples. *)
Fixpoint trial (fuel : nat) (d p : Z) : bool :=
  match fuel with
  | O => true
  | S fuel' => negb (p mod d =? 0) && trial fuel' (d + 1) p
  end.

Definition is_prime (p : Z) : bool :=
  (1 <? p) && trial (Z.to_nat (p - 2)) 2 p.

(** The key of [GenerateKey(random, 10)] when the source supplies the 5-bit
    primes 29 and 31. *)
Definition key_29_31 : PrivateKey :=
  {| pub := {| N1 := 899; G := 900; NSquared := 808201 |};
     P := 29; PP := 841; Pminusone := 28;
     Q := 31; QQ := 961; Qminusone := 30;
     Pinvq := Some 15; Hp := Some 14; Hq := Some 16;
     N := 899 |}.

(** The key of [GenerateKey(random, 4)]: 3 is the only 2-bit number with its
    two top bits set, so both searches return it and no inverse exists. *)
Definition key_3_3 : PrivateKey :=
  {| pub := {| N1 := 9; G := 10; NSquared := 81 |};
     P := 3; PP := 9; Pminusone := 2;
     Q := 3; QQ := 9; Qminusone := 2;
     Pinvq := None; Hp := None; Hq := None;
     N := 9 |}.

(** A key with modulus 0: its [NSquared] is the square of its [N1]. *)
Definition zero_key : PrivateKey :=
  {| pub := {| N1 := 0; G := 1; NSquared := 0 |};
     P := 0; PP := 0; Pminusone := -1;
     Q := 0; QQ := 0; Qminusone := -1;
     Pinvq := None; Hp := None; Hq := None;
     N := 0 |}.

(** A byte string without its leading zero bytes. *)
Fixpoint trim (buf : list byte) : list byte :=
  match buf with
  | [] => []
  | b :: rest => if Byte.eqb b x00 then trim rest else buf
  end.

(** [ciphertext_of privKey cipherText m]: the bytes encode an integer
    below [NSquared] that is an encryption of [m] under some nonce prime to
    the modulus. *)
Definition ciphertext_of (privKey : PrivateKey) (cipherText : list byte)
  (m : Z) : Prop :=
  big.SetBytes cipherText < NSquared (pub privKey) /\
  exists s, Z.coprime s (N1 (pub privKey)) /\
            encrypts (N1 (pub privKey)) (big.SetBytes cipherText) m s.

(** * Properties of the [math/big] model *)

Module bigFacts.
Import big.

Lemma Cmp_lt_1 (x y : Z) : (Cmp x y <? 1) = (x <=? y).
Proof.
  unfold Cmp. rewrite Z.leb_compare.
  destruct (x ?= y); reflexivity.
Qed.

Lemma Mod_pos (x y : Z) : 0 < y -> Mod x y = Ok (x mod y).
Proof.
  intros Hy. unfold Mod.
  destruct (Z.eqb_spec y 0); [lia|]. now rewrite Z.abs_eq by lia.
Qed.

Lemma Div_pos (x y : Z) : 0 < y -> Div x y = Ok (x / y).
Proof.
  intros Hy. unfold Div.
  destruct (Z.eqb_spec y 0); [lia|].
  destruct (Z.ltb_spec 0 y); [reflexivity|lia].
Qed.

Lemma Exp_pos (x y m : Z) : 0 <= y -> 0 < m -> Exp x y m = Some ((x ^ y) mod m).
Proof.
  intros Hy Hm. unfold Exp.
  destruct (Z.ltb_spec y 0); [lia|].
  destruct (Z.eqb_spec m 0); [lia|]. now rewrite Z.abs_eq by lia.
Qed.

Lemma ModInverse_coprime (g n : Z) :
  2 <= n -> Z.coprime g n ->
  ModInverse g n = Some (Z.invmod g n) /\ (Z.invmod g n * g) mod n = 1.
Proof.
  intros Hn Hg. unfold ModInverse.
  rewrite Hg, Z.eqb_refl, Z.abs_eq by lia.
  split; [reflexivity|]. now apply Z.invmod_coprime.
Qed.

Lemma byte_to_Z_range (b : byte) : 0 <= byte_to_Z b < 256.
Proof.
  unfold byte_to_Z. pose proof (Byte.to_N_bounded b). lia.
Qed.

Lemma byte_to_of_Z (z : Z) : 0 <= z < 256 -> byte_to_Z (byte_of_Z z) = z.
Proof.
  intros Hz. unfold byte_to_Z, byte_of_Z.
  destruct (Byte.of_N (Z.to_N z)) as [b|] eqn:E.
  - apply Byte.to_of_N in E. rewrite E. lia.
  - apply Byte.of_N_None_iff in E. lia.
Qed.

Lemma SetBytes_rev (ds : list byte) : SetBytes (rev ds) = value ds.
Proof.
  unfold SetBytes, value.
  rewrite <- (rev_involutive ds) at 2.
  now rewrite fold_left_rev_right.
Qed.

Lemma value_nonneg (ds : list byte) : 0 <= value ds.
Proof.
  induction ds as [|b ds IH]; simpl; [lia|].
  pose proof (byte_to_Z_range b). lia.
Qed.

Lemma SetBytes_nonneg (buf : list byte) : 0 <= SetBytes buf.
Proof.
  rewrite <- (rev_involutive buf), SetBytes_rev. apply value_nonneg.
Qed.

Lemma value_digits (fuel : nat) :
  forall x, 0 <= x < 2 ^ Z.of_nat fuel -> value (digits fuel x) = x.
Proof.
  induction fuel as [|fuel IH]; intros x Hx.
  - simpl in *. lia.
  - cbn [digits]. destruct (Z.eqb_spec x 0) as [->|Hnz]; [reflexivity|].
    cbn [value fold_right]. fold (value (digits fuel (x / 256))).
    rewrite IH, byte_to_of_Z.
    + pose proof (Z.div_mod x 256). lia.
    + apply Z.mod_pos_bound. lia.
    + rewrite Nat2Z.inj_succ, Z.pow_succ_r in Hx by lia.
      split; [apply Z.div_pos; lia|].
      apply Z.div_lt_upper_bound; lia.
Qed.

Lemma SetBytes_Bytes (x : Z) : 0 <= x -> SetBytes (Bytes x) = x.
Proof.
  intros Hx. unfold Bytes. rewrite SetBytes_rev, Z.abs_eq by assumption.
  apply value_digits. split; [assumption|].
  destruct (Z.eq_dec x 0) as [->|Hnz]; [apply Z.pow_pos_nonneg; lia|].
  rewrite Nat2Z.inj_succ, Z2Nat.id by apply Z.log2_nonneg.
  apply Z.log2_spec. lia.
Qed.

End bigFacts.

(** * Arithmetic behind the scheme *)

Module Arith.

(** Two integers that differ by a multiple of [n] have the same residue. *)
Lemma mod_eq_intro (n a b z : Z) : a = b + z * n -> a mod n = b mod n.
Proof. intros ->. apply Z_mod_plus_full. Qed.

Lemma mul_mod_compat (n a a' b b' : Z) :
  a mod n = a' mod n -> b mod n = b' mod n -> (a * b) mod n = (a' * b') mod n.
Proof.
  intros Ha Hb. rewrite (Zmult_mod a b), (Zmult_mod a' b').
  now rewrite Ha, Hb.
Qed.

Lemma pow_mod_compat (n a a' k : Z) :
  a mod n = a' mod n -> (a ^ k) mod n = (a' ^ k) mod n.
Proof.
  intros Ha. rewrite <- (Z.mod_pow_l a), <- (Z.mod_pow_l a'). now rewrite Ha.
Qed.

(** Binomial expansion modulo [p * p]: only the first two terms survive. *)
Lemma pow_one_plus (p t k : Z) :
  0 <= k -> ((1 + p * t) ^ k) mod (p * p) = (1 + p * (k * t)) mod (p * p).
Proof.
  intros Hk. pattern k. apply natlike_ind; [| |assumption].
  - now rewrite Z.pow_0_r, Z.mul_0_l, Z.mul_0_r, Z.add_0_r.
  - intros j Hj IH. rewrite Z.pow_succ_r by assumption.
    rewrite (mul_mod_compat _ _ (1 + p * t) _ (1 + p * (j * t)) eq_refl IH).
    apply mod_eq_intro with (z := j * t * t). ring.
Qed.

(** A unit modulo a prime [p] has order dividing [p * (p - 1)] modulo
    [p * p]. *)
Lemma pow_unit_square (p s : Z) :
  Z.prime p -> s mod p <> 0 -> (s ^ (p * (p - 1))) mod (p * p) = 1.
Proof.
  intros Hp Hs. pose proof (Z.prime_ge_2 _ Hp) as Hp2.
  pose proof (Z.fermat_nz p s Hp Hs) as Hf.
  rewrite Z.mul_comm, Z.pow_mul_r by lia.
  rewrite (Z.div_mod (s ^ (p - 1)) p), Hf by lia.
  rewrite Z.add_comm, pow_one_plus by lia.
  rewrite (mod_eq_intro _ _ 1 (s ^ (p - 1) / p)) by ring.
  apply Z.mod_small. nia.
Qed.

(** The quotient [(u - 1) / p] reads off [t] from [1 + p * t] reduced
    modulo [p * p]. *)
Lemma quotient_of_lift (p x t : Z) :
  1 < p -> x mod (p * p) = (1 + p * t) mod (p * p) ->
  (x mod (p * p) - 1) / p = t mod p.
Proof.
  intros Hp ->.
  rewrite (mod_eq_intro (p * p) (1 + p * t) (1 + p * (t mod p)) (t / p)).
  - pose proof (Z.mod_pos_bound t p ltac:(lia)).
    rewrite Z.mod_small by nia.
    replace (1 + p * (t mod p) - 1) with ((t mod p) * p) by ring.
    apply Z.div_mul. lia.
  - rewrite (Z.div_mod t p) at 1 by lia. ring.
Qed.

(** Residues modulo two coprime moduli determine the residue modulo their
    product. *)
Lemma mod_mul_unique (p q a b : Z) :
  0 <= p -> 0 <= q -> Z.coprime p q ->
  a mod p = b mod p -> a mod q = b mod q -> a mod (p * q) = b mod (p * q).
Proof.
  intros Hp Hq Hc H1 H2.
  rewrite (Z.combinecong_complete_coprime_nonneg_nonneg a p q b b),
          (Z.combinecong_complete_coprime_nonneg_nonneg b p q b b);
    auto.
Qed.

Lemma distinct_primes_coprime (p q : Z) :
  Z.prime p -> Z.prime q -> p <> q -> Z.coprime p q.
Proof.
  intros Hp Hq Hne. apply Z.coprime_prime_l; [assumption|].
  intros Hd. apply Hne. now apply Z.divide_prime_prime.
Qed.

Lemma prime_not_dvd_mod (p a : Z) : Z.prime p -> Z.coprime a p -> a mod p <> 0.
Proof.
  intros Hp Hc Hz. pose proof (Z.prime_ge_2 _ Hp).
  apply Z.mod_divide in Hz; [|lia].
  symmetry in Hc. apply Z.coprime_prime_l_iff in Hc; auto.
Qed.

Lemma coprime_mul_inv_l (a p q : Z) : Z.coprime a (p * q) -> Z.coprime a p.
Proof.
  intros H. apply Z.coprime_Bezout. apply Z.Bezout_coprime in H.
  destruct H as (u & v & E). exists u, (v * q). rewrite <- E. ring.
Qed.

Lemma coprime_mul_inv_r (a p q : Z) : Z.coprime a (p * q) -> Z.coprime a q.
Proof. rewrite Z.mul_comm. apply coprime_mul_inv_l. Qed.

(** [c ^ (p - 1)] modulo [p * p], for [c] an encryption of [m] under the
    modulus [n = p * q] with a nonce that is a unit modulo [p]. *)
Lemma pow_cipher_mod_square (p q n c m s : Z) :
  Z.prime p -> 0 < q -> n = p * q -> s mod p <> 0 ->
  c mod (n * n) = ((1 + m * n) * s ^ n) mod (n * n) ->
  (c ^ (p - 1)) mod (p * p) = (1 + p * ((p - 1) * (m * q))) mod (p * p).
Proof.
  intros Hp Hq Hn Hs Hc. pose proof (Z.prime_ge_2 _ Hp) as Hp2.
  assert (Hdiv : (p * p | n * n)) by (exists (q * q); subst n; ring).
  assert (Hc' : c mod (p * p) = ((1 + m * n) * s ^ n) mod (p * p)).
  { rewrite <- (Z.mod_mod_divide c (n * n) (p * p)), Hc by assumption.
    now apply Z.mod_mod_divide. }
  rewrite (pow_mod_compat _ _ _ (p - 1) Hc'), Z.pow_mul_l.
  rewrite <- (Z.mul_1_r (1 + p * _)).
  apply mul_mod_compat.
  - replace (1 + m * n) with (1 + p * (m * q)) by (subst n; ring).
    apply pow_one_plus. lia.
  - rewrite <- Z.pow_mul_r by (subst n; nia).
    replace (n * (p - 1)) with (p * (p - 1) * q) by (subst n; ring).
    rewrite Z.pow_mul_r by nia.
    rewrite (pow_mod_compat (p * p) (s ^ (p * (p - 1))) 1 q).
    + now rewrite Z.pow_1_l by lia.
    + rewrite pow_unit_square by assumption. symmetry. apply Z.mod_small. nia.
Qed.

(** Multiplying the quotient by the inverse of [-q] gives back [m]. *)
Lemma times_inverse (p q hp m : Z) :
  1 < p -> (hp * - q) mod p = 1 ->
  ((((p - 1) * (m * q)) mod p) * hp) mod p = m mod p.
Proof.
  intros Hp Hh. rewrite Z.mul_mod_idemp_l by lia.
  rewrite (mod_eq_intro p _ (m * (hp * - q)) (m * q * hp)) by ring.
  rewrite Zmult_mod, Hh, Z.mul_1_r. apply Z.mod_mod. lia.
Qed.

(** Garner's recombination of the residues of [m] modulo [p] and [q]. *)
Lemma recombine (p q pinvq m : Z) :
  0 < p -> 0 < q -> Z.coprime p q -> (pinvq * p) mod q = 1 ->
  (m mod p + (((m mod q - m mod p) * pinvq) mod q) * p) mod (p * q)
  = m mod (p * q).
Proof.
  intros Hp Hq Hc Hi. apply mod_mul_unique; try lia; try assumption.
  - rewrite Z_mod_plus_full. apply Z.mod_mod. lia.
  - rewrite Z.add_mod, Z.mul_mod_idemp_l, <- Z.add_mod by lia.
    pose proof (Z.div_mod (pinvq * p) q ltac:(lia)) as E. rewrite Hi in E.
    rewrite (mod_eq_intro q _ (m mod q)
               ((m mod q - m mod p) * (pinvq * p / q))).
    + apply Z.mod_mod. lia.
    + set (k := pinvq * p / q) in *.
      replace ((m mod q - m mod p) * pinvq * p)
        with ((m mod q - m mod p) * (pinvq * p)) by ring.
      rewrite E. ring.
Qed.

End Arith.

(** * Keys built by [GenerateKey] *)

Module KeyFacts.
Import big bigFacts Arith.

(** The coefficient [h] computes for the prime [p] of the modulus
    [n = p * q] is the inverse of [-q] modulo [p]. *)
Lemma h_value (p q n : Z) :
  Z.prime p -> Z.prime q -> p <> q -> n = p * q ->
  h p (p * p) n = Ok (Some (Z.invmod (- q) p)) /\
  (Z.invmod (- q) p * - q) mod p = 1.
Proof.
  intros Hp Hq Hne Hn. pose proof (Z.prime_ge_2 _ Hp) as Hp2.
  assert (Hc : Z.coprime (- q) p).
  { apply Z.coprime_opp_l. symmetry. now apply distinct_primes_coprime. }
  destruct (ModInverse_coprime ((- q) mod p) p Hp2) as [Hinv _].
  { now apply Z.coprime_mod_l_iff. }
  unfold h, l, one. rewrite Mod_pos by nia. cbn [bind].
  rewrite Div_pos by lia. cbn [bind].
  rewrite (quotient_of_lift p (1 - n) (- q)), Hinv, Z.invmod_mod_l.
  - split; [reflexivity|]. now apply Z.invmod_coprime.
  - lia.
  - f_equal. subst n. ring.
Qed.

(** The key [GenerateKey] returns for two distinct primes. *)
Lemma GenerateKey_distinct (p q : Z) :
  Z.prime p -> Z.prime q -> p <> q ->
  GenerateKey (Ok p) (Ok q) =
  Ok {| pub := {| N1 := p * q; NSquared := p * q * (p * q); G := p * q + 1 |};
        P := p; PP := p * p; Pminusone := p - 1;
        Q := q; QQ := q * q; Qminusone := q - 1;
        Pinvq := Some (Z.invmod p q);
        Hp := Some (Z.invmod (- q) p);
        Hq := Some (Z.invmod (- p) q);
        N := p * q |}.
Proof.
  intros Hp Hq Hne. pose proof (Z.prime_ge_2 _ Hq) as Hq2.
  destruct (h_value p q (p * q) Hp Hq Hne eq_refl) as [Ehp _].
  destruct (h_value q p (p * q) Hq Hp (not_eq_sym Hne) (Z.mul_comm p q))
    as [Ehq _].
  destruct (ModInverse_coprime p q Hq2 (distinct_primes_coprime p q Hp Hq Hne))
    as [Einv _].
  unfold GenerateKey. cbn [bind]. rewrite Ehp, Ehq, Einv. reflexivity.
Qed.

(** Whatever [GenerateKey] returns without error or panic has this shape. *)
Lemma GenerateKey_Ok (primeP primeQ : outcome Z) (priv : PrivateKey) :
  GenerateKey primeP primeQ = Ok priv ->
  exists p q hp hq,
    primeP = Ok p /\ primeQ = Ok q /\
    priv = {| pub := {| N1 := p * q; NSquared := p * q * (p * q);
                        G := p * q + 1 |};
              P := p; PP := p * p; Pminusone := p - 1;
              Q := q; QQ := q * q; Qminusone := q - 1;
              Pinvq := ModInverse p q; Hp := hp; Hq := hq;
              N := p * q |}.
Proof.
  unfold GenerateKey.
  destruct primeQ as [q| |]; cbn [bind]; try discriminate.
  destruct primeP as [p| |]; cbn [bind]; try discriminate.
  destruct (h p (p * p) (p * q)) as [hp| |]; cbn [bind]; try discriminate.
  destruct (h q (q * q) (p * q)) as [hq| |]; cbn [bind]; try discriminate.
  intros [= <-]. exists p, q, hp, hq. auto.
Qed.

(** ** Decryption of anything that has the shape of a ciphertext

    [c] stands for an encryption of [m] when it is congruent, modulo the
    square of the modulus, to [(1 + m * n) * s ^ n] for a unit [s]. *)
Lemma Decrypt_shape (p q : Z) (priv : PrivateKey) (c m s : Z) :
  Z.prime p -> Z.prime q -> p <> q ->
  GenerateKey (Ok p) (Ok q) = Ok priv ->
  0 <= c < p * q * (p * q) ->
  Z.coprime s (p * q) ->
  c mod (p * q * (p * q)) = ((1 + m * (p * q)) * s ^ (p * q)) mod (p * q * (p * q)) ->
  Decrypt priv (Bytes c) = Ok (Bytes (m mod (p * q))).
Proof.
  intros primep primeq Hne Hgen Hc Hs Hshape.
  pose proof (Z.prime_ge_2 _ primep) as Hp2. pose proof (Z.prime_ge_2 _ primeq) as Hq2.
  rewrite GenerateKey_distinct in Hgen by assumption.
  injection Hgen as <-.
  destruct (h_value p q (p * q) primep primeq Hne eq_refl) as [_ Hhp].
  destruct (h_value q p (p * q) primeq primep (not_eq_sym Hne) (Z.mul_comm p q))
    as [_ Hhq].
  pose proof (distinct_primes_coprime p q primep primeq Hne) as Hpq.
  destruct (ModInverse_coprime p q Hq2 Hpq) as [_ Hinv].
  assert (Hsp : s mod p <> 0).
  { apply prime_not_dvd_mod; [assumption|]. now apply coprime_mul_inv_l in Hs. }
  assert (Hsq : s mod q <> 0).
  { apply prime_not_dvd_mod; [assumption|]. now apply coprime_mul_inv_r in Hs. }
  assert (Hn : 0 < p * q) by nia.
  assert (Hpp : 0 < p * p) by nia.
  assert (Hqq : 0 < q * q) by nia.
  unfold Decrypt. cbn [pub NSquared Pminusone PP P Hp Qminusone QQ Q Hq].
  rewrite SetBytes_Bytes, Cmp_lt_1 by lia.
  destruct (Z.leb_spec (p * q * (p * q)) c) as [Hle|_]; [lia|].
  rewrite !Exp_pos by lia. cbn [deref bind]. unfold l, one.
  rewrite !Div_pos by lia. cbn [bind].
  rewrite !Mod_pos by lia. cbn [bind].
  unfold crt. cbn [Pinvq Q P N deref bind].
  repeat (rewrite Mod_pos by lia; cbn [bind]).
  do 2 f_equal.
  rewrite (quotient_of_lift p (c ^ (p - 1)) ((p - 1) * (m * q)));
    [|lia|now apply (pow_cipher_mod_square p q (p * q) c m s); try lia].
  rewrite (quotient_of_lift q (c ^ (q - 1)) ((q - 1) * (m * p)));
    [|lia|apply (pow_cipher_mod_square q p (p * q) c m s); try lia; assumption].
  rewrite (times_inverse p q), (times_inverse q p) by (assumption || lia).
  now apply recombine; try lia.
Qed.

End KeyFacts.

(** * The ciphertext algebra *)

Module Cipher.
Import Arith.

Lemma encrypts_formula (n m r : Z) :
  encrypts n ((((1 + m * n) mod (n * n)) * ((r ^ n) mod (n * n))) mod (n * n))
           m r.
Proof.
  unfold encrypts. rewrite Zmod_mod.
  apply mul_mod_compat; apply Zmod_mod.
Qed.

Lemma one_plus_mul (n a b : Z) :
  ((1 + a * n) * (1 + b * n)) mod (n * n) = (1 + (a + b) * n) mod (n * n).
Proof. apply mod_eq_intro with (z := a * b). ring. Qed.

(** Multiplying ciphertexts adds plaintexts and multiplies nonces. *)
Lemma encrypts_mul (n c1 c2 m1 m2 s1 s2 : Z) :
  encrypts n c1 m1 s1 -> encrypts n c2 m2 s2 ->
  encrypts n ((c1 * c2) mod (n * n)) (m1 + m2) (s1 * s2).
Proof.
  unfold encrypts. intros H1 H2.
  rewrite Zmod_mod, (mul_mod_compat _ _ _ _ _ H1 H2), Z.pow_mul_l.
  replace ((1 + m1 * n) * s1 ^ n * ((1 + m2 * n) * s2 ^ n))
    with ((1 + m1 * n) * (1 + m2 * n) * (s1 ^ n * s2 ^ n)) by ring.
  apply mul_mod_compat; [apply one_plus_mul|reflexivity].
Qed.

(** Multiplying by a power of the generator [n + 1] adds a constant. *)
Lemma encrypts_add (n c m s k : Z) :
  0 <= k -> encrypts n c m s ->
  encrypts n ((c * (((n + 1) ^ k) mod (n * n))) mod (n * n)) (m + k) s.
Proof.
  unfold encrypts. intros Hk H.
  assert (Hg : (((n + 1) ^ k) mod (n * n)) mod (n * n)
               = (1 + k * n) mod (n * n)).
  { rewrite Zmod_mod. replace (n + 1) with (1 + n * 1) by ring.
    rewrite pow_one_plus by assumption. f_equal. ring. }
  rewrite Zmod_mod, (mul_mod_compat _ _ _ _ _ H Hg).
  replace ((1 + m * n) * s ^ n * (1 + k * n))
    with ((1 + m * n) * (1 + k * n) * s ^ n) by ring.
  apply mul_mod_compat; [apply one_plus_mul|reflexivity].
Qed.

(** Raising to a power multiplies the plaintext by a constant. *)
Lemma encrypts_pow (n c m s k : Z) :
  0 <= n -> 0 <= k -> encrypts n c m s ->
  encrypts n ((c ^ k) mod (n * n)) (m * k) (s ^ k).
Proof.
  unfold encrypts. intros Hn Hk H.
  rewrite Zmod_mod, (pow_mod_compat _ _ _ k H), Z.pow_mul_l.
  apply mul_mod_compat.
  - replace (1 + m * n) with (1 + n * m) by ring.
    rewrite pow_one_plus by assumption. f_equal. ring.
  - rewrite <- !Z.pow_mul_r by assumption. now rewrite Z.mul_comm.
Qed.

End Cipher.

(** * Distinct nonces give distinct ciphertexts *)

Module Nonce.
Import Arith.

Lemma pow_fermat_cycle (p a v : Z) :
  Z.prime p -> 0 <= v -> (a ^ (1 + v * (p - 1))) mod p = a mod p.
Proof.
  intros Hp Hv. pose proof (Z.prime_ge_2 _ Hp) as Hp2.
  pattern v. apply natlike_ind; [| |assumption].
  - now rewrite Z.mul_0_l, Z.add_0_r, Z.pow_1_r.
  - intros j Hj IH.
    replace (1 + Z.succ j * (p - 1)) with (p + j * (p - 1)) by ring.
    rewrite Z.pow_add_r by nia.
    rewrite (mul_mod_compat p (a ^ p) a _ (a ^ (j * (p - 1)))
               (Z.fermat p a Hp) eq_refl).
    rewrite <- (Z.pow_1_r a) at 1. rewrite <- Z.pow_add_r by nia.
    exact IH.
Qed.

(** Raising to a power [e] prime to [p - 1] is injective modulo [p]. *)
Lemma pow_inj_mod_prime (p e a b : Z) :
  Z.prime p -> 3 <= p -> 0 <= e -> Z.coprime e (p - 1) ->
  (a ^ e) mod p = (b ^ e) mod p -> a mod p = b mod p.
Proof.
  intros Hp Hp3 He Hc Hab.
  pose proof (Z.invmod_coprime e (p - 1) ltac:(lia) Hc) as Hu.
  set (u := Z.invmod e (p - 1)) in *.
  assert (Hu0 : 0 <= u).
  { unfold u. rewrite <- Z.mod_invmod. apply Z.mod_pos_bound. lia. }
  pose proof (Z.div_mod (u * e) (p - 1) ltac:(lia)) as E. rewrite Hu in E.
  set (v := u * e / (p - 1)) in *.
  assert (Hv : 0 <= v) by (apply Z.div_pos; nia).
  rewrite <- (pow_fermat_cycle p a v), <- (pow_fermat_cycle p b v)
    by assumption.
  replace (1 + v * (p - 1)) with (e * u) by lia.
  rewrite !Z.pow_mul_r by assumption.
  now apply pow_mod_compat.
Qed.

Lemma odd_prime (p : Z) : Z.prime p -> 3 <= p -> p mod 2 = 1.
Proof.
  intros [_ Hp] Hp3.
  pose proof (Z.mod_pos_bound p 2 ltac:(lia)).
  destruct (Z.eq_dec (p mod 2) 0) as [E|]; [|lia].
  exfalso. apply (Hp 2); [lia|]. apply Z.mod_divide; [lia|assumption].
Qed.

(** Two distinct primes of the same bit length, with their two top bits
    set: neither divides the other minus one. *)
Lemma same_length_coprime (bits p q : Z) :
  rand_Prime_returns bits p -> rand_Prime_returns bits q -> p <> q ->
  Z.coprime q (p - 1).
Proof.
  intros (Hb & Pp & Hp) (_ & Pq & Hq) Hne.
  assert (H4 : 2 ^ bits = 4 * 2 ^ (bits - 2)).
  { replace bits with (2 + (bits - 2)) at 1 by ring.
    rewrite Z.pow_add_r by lia. reflexivity. }
  assert (H0 : 0 < 2 ^ (bits - 2)) by (apply Z.pow_pos_nonneg; lia).
  apply Z.coprime_prime_l; [assumption|].
  intros [k Hk].
  assert (Hk1 : 1 <= k) by nia.
  destruct (Z.eq_dec k 1) as [->|Hk2].
  - pose proof (odd_prime p Pp ltac:(lia)) as Op.
    pose proof (odd_prime q Pq ltac:(lia)) as Oq.
    replace p with (q + 1) in Op by lia.
    rewrite <- Zplus_mod_idemp_l, Oq in Op. discriminate Op.
  - nia.
Qed.

(** The nonce is determined by [r ^ n] modulo [n], for [n = p * q]. *)
Lemma pow_modulus_inj (bits p q r1 r2 : Z) :
  rand_Prime_returns bits p -> rand_Prime_returns bits q -> p <> q ->
  0 <= r1 < p * q -> 0 <= r2 < p * q ->
  (r1 ^ (p * q)) mod (p * q) = (r2 ^ (p * q)) mod (p * q) -> r1 = r2.
Proof.
  intros Rp Rq Hne H1 H2 E.
  pose proof (same_length_coprime bits p q Rp Rq Hne) as Cq.
  pose proof (same_length_coprime bits q p Rq Rp (not_eq_sym Hne)) as Cp.
  destruct Rp as (Hb & Pp & Hp), Rq as (_ & Pq & Hq).
  assert (H0 : 0 < 2 ^ (bits - 2)) by (apply Z.pow_pos_nonneg; lia).
  assert (Ep : r1 mod p = r2 mod p).
  { apply (pow_inj_mod_prime p q); try assumption; try lia.
    rewrite <- (pow_mod_compat p _ _ q (Z.fermat p r1 Pp)),
            <- (pow_mod_compat p _ _ q (Z.fermat p r2 Pp)).
    rewrite <- !Z.pow_mul_r by lia.
    rewrite <- (Z.mod_mod_divide (r1 ^ (p * q)) (p * q) p),
            <- (Z.mod_mod_divide (r2 ^ (p * q)) (p * q) p), E;
      try reflexivity; exists q; ring. }
  assert (Eq : r1 mod q = r2 mod q).
  { apply (pow_inj_mod_prime q p); try assumption; try lia.
    rewrite <- (pow_mod_compat q _ _ p (Z.fermat q r1 Pq)),
            <- (pow_mod_compat q _ _ p (Z.fermat q r2 Pq)).
    rewrite <- !Z.pow_mul_r by lia. rewrite (Z.mul_comm q p).
    rewrite <- (Z.mod_mod_divide (r1 ^ (p * q)) (p * q) q),
            <- (Z.mod_mod_divide (r2 ^ (p * q)) (p * q) q), E;
      try reflexivity; exists p; ring. }
  pose proof (mod_mul_unique p q r1 r2 ltac:(lia) ltac:(lia)
                (distinct_primes_coprime p q Pp Pq Hne) Ep Eq) as En.
  now rewrite !Z.mod_small in En by assumption.
Qed.

End Nonce.

(** * Concrete keys *)

Module Samples.

Lemma trial_sound (fuel : nat) :
  forall d p n, 0 < d -> trial fuel d p = true ->
                d <= n < d + Z.of_nat fuel -> ~ (n | p).
Proof.
  induction fuel as [|fuel IH]; intros d p n Hd Ht Hn; [lia|].
  cbn [trial] in Ht. apply andb_true_iff in Ht. destruct Ht as [Hnd Ht].
  destruct (Z.eq_dec n d) as [->|Hne].
  - intros Hdiv. apply Z.mod_divide in Hdiv; [|lia].
    rewrite Hdiv in Hnd. discriminate Hnd.
  - apply (IH (d + 1) p n); [lia|assumption|lia].
Qed.

Lemma is_prime_sound (p : Z) : is_prime p = true -> Z.prime p.
Proof.
  unfold is_prime. intros H. apply andb_true_iff in H. destruct H as [H1 Ht].
  apply Z.ltb_lt in H1. split; [assumption|].
  intros n Hn. apply (trial_sound (Z.to_nat (p - 2)) 2 p n); [lia|assumption|lia].
Qed.

Lemma prime_29 : Z.prime 29.
Proof. apply is_prime_sound. reflexivity. Qed.

Lemma prime_31 : Z.prime 31.
Proof. apply is_prime_sound. reflexivity. Qed.

Lemma generated_29_31 : generated 10 29 31 key_29_31.
Proof.
  unfold generated, rand_Prime_returns.
  repeat split; try apply prime_29; try apply prime_31; try reflexivity;
    try discriminate.
Qed.

Lemma generated_3_3 : generated 4 3 3 key_3_3.
Proof.
  unfold generated, rand_Prime_returns.
  repeat split; try apply Z.prime_3; try reflexivity; try discriminate.
Qed.

End Samples.

(** * What each call returns *)

Module Contract.
Import big bigFacts Arith KeyFacts Cipher.

Lemma no_error_bind {A B : Type} (c : outcome A) (k : A -> outcome B) :
  no_error c -> (forall a, no_error (k a)) -> no_error (bind c k).
Proof.
  intros Hc Hk e. destruct c as [a|e'|x]; cbn [bind].
  - apply Hk.
  - destruct (Hc e' eq_refl).
  - discriminate.
Qed.

Lemma no_error_Mod (x y : Z) : no_error (Mod x y).
Proof. intros e. unfold Mod. destruct (y =? 0); discriminate. Qed.

Lemma no_error_Div (x y : Z) : no_error (Div x y).
Proof.
  intros e. unfold Div. destruct (y =? 0); [discriminate|].
  destruct (0 <? y); discriminate.
Qed.

Lemma no_error_deref {A : Type} (ptr : option A) : no_error (deref ptr).
Proof. intros e. destruct ptr; discriminate. Qed.

Lemma no_error_Ok {A : Type} (a : A) : no_error (Ok a).
Proof. intros e. discriminate. Qed.

Create HintDb no_error.
#[local] Hint Resolve no_error_Mod no_error_Div no_error_deref no_error_Ok
  : no_error.

Ltac no_error_steps :=
  repeat (apply no_error_bind; [auto with no_error|intros ?]);
  auto with no_error.

(** ** [EncryptWithNonce] *)

Lemma EncryptWithNonce_too_long (pubKey : PublicKey) (r : Z) (plainText : list byte) :
  N1 pubKey <= SetBytes plainText ->
  EncryptWithNonce pubKey r plainText = Err ErrMessageTooLong.
Proof.
  intros H. unfold EncryptWithNonce. rewrite Cmp_lt_1.
  now destruct (Z.leb_spec (N1 pubKey) (SetBytes plainText)); [|lia].
Qed.

Lemma EncryptWithNonce_error (pubKey : PublicKey) (r : Z) (plainText : list byte)
  (e : error) :
  EncryptWithNonce pubKey r plainText = Err e ->
  e = ErrMessageTooLong /\ N1 pubKey <= SetBytes plainText.
Proof.
  unfold EncryptWithNonce. rewrite Cmp_lt_1.
  destruct (Z.leb_spec (N1 pubKey) (SetBytes plainText)) as [Hle|Hlt].
  - intros [= <-]. auto.
  - intros H. exfalso. revert H. unfold l.
    match goal with |- ?c = Err e -> False => assert (Hn : no_error c) end.
    { no_error_steps. }
    apply Hn.
Qed.

Lemma EncryptWithNonce_value (pubKey : PublicKey) (r : Z) (plainText : list byte) :
  NSquared pubKey = N1 pubKey * N1 pubKey ->
  SetBytes plainText < N1 pubKey ->
  EncryptWithNonce pubKey r plainText =
  Ok ((((1 + SetBytes plainText * N1 pubKey) mod (N1 pubKey * N1 pubKey))
       * ((r ^ N1 pubKey) mod (N1 pubKey * N1 pubKey)))
      mod (N1 pubKey * N1 pubKey)).
Proof.
  intros Hsq Hm. pose proof (SetBytes_nonneg plainText) as H0.
  assert (Hn2 : 0 < N1 pubKey * N1 pubKey) by nia.
  unfold EncryptWithNonce, one. rewrite Cmp_lt_1, Hsq.
  destruct (Z.leb_spec (N1 pubKey) (SetBytes plainText)) as [Hle|_]; [lia|].
  rewrite Mod_pos by assumption. cbn [bind].
  rewrite Exp_pos by lia. cbn [deref bind].
  now rewrite Mod_pos by assumption.
Qed.

(** The ciphertext modulo [n] is [r ^ n] modulo [n]. *)
Lemma cipher_mod_modulus (n m r : Z) :
  ((((1 + m * n) mod (n * n)) * ((r ^ n) mod (n * n))) mod (n * n)) mod n
  = (r ^ n) mod n.
Proof.
  assert (Hd : (n | n * n)) by (exists n; ring).
  rewrite Z.mod_mod_divide by assumption.
  rewrite Zmult_mod, !Z.mod_mod_divide by assumption.
  rewrite <- Zmult_mod.
  apply mod_eq_intro with (z := m * r ^ n). ring.
Qed.

(** ** [Decrypt] *)


Lemma Decrypt_error (privKey : PrivateKey) (cipherText : list byte) (e : error) :
  Decrypt privKey cipherText = Err e ->
  e = ErrMessageTooLong /\ NSquared (pub privKey) <= SetBytes cipherText.
Proof.
  unfold Decrypt. rewrite Cmp_lt_1.
  destruct (Z.leb_spec (NSquared (pub privKey)) (SetBytes cipherText)) as [Hle|Hlt].
  - intros [= <-]. auto.
  - intros H. exfalso. revert H. unfold l, crt.
    match goal with |- ?c = Err e -> False => assert (Hn : no_error c) end.
    { no_error_steps. }
    apply Hn.
Qed.


(** The fields of a generated key, and what its modulus is. *)
Lemma generated_key (bits p q : Z) (priv : PrivateKey) :
  generated bits p q priv -> p <> q ->
  Z.prime p /\ Z.prime q /\ GenerateKey (Ok p) (Ok q) = Ok priv /\
  N1 (pub priv) = p * q /\ NSquared (pub priv) = p * q * (p * q) /\
  G (pub priv) = p * q + 1 /\ 0 < p * q.
Proof.
  intros ((_ & Pp & _) & (_ & Pq & _) & Hgen) Hne.
  pose proof (Z.prime_ge_2 _ Pp). pose proof (Z.prime_ge_2 _ Pq).
  pose proof Hgen as Hgen'.
  rewrite GenerateKey_distinct in Hgen' by assumption.
  injection Hgen' as <-. cbn [pub N1 NSquared G].
  assert (0 < p * q) by nia.
  repeat match goal with |- _ /\ _ => split end;
    first [assumption|reflexivity].
Qed.

Lemma mod_square_range (n x : Z) : n <> 0 -> 0 <= x mod (n * n) < n * n.
Proof. intros Hn. apply Z.mod_pos_bound. nia. Qed.

End Contract.

(** * The specification, claim by claim *)

Import big bigFacts Arith KeyFacts Cipher Nonce Contract Samples.

Lemma SetBytes_snoc (buf : list byte) (b : byte) :
  SetBytes (buf ++ [b]) = SetBytes buf * 256 + byte_to_Z b.
Proof. unfold SetBytes. now rewrite fold_left_app. Qed.

(** C2 (amended).  [EncryptWithNonce] reads the plaintext as the big-endian
    unsigned integer [m]; for every public key it returns
    [ErrMessageTooLong] exactly when [m >= N1], and no other error;
    otherwise, for a public key whose [NSquared] is the square of [N1], it
    returns [((1 + m*N1) mod N1^2) * (r^N1 mod N1^2) mod N1^2].  The result
    depends on nothing but the key, [r] and [m]. *)
Theorem EncryptWithNonce_contract (pubKey : PublicKey) (r : Z)
  (plainText : list byte) :
  let m := SetBytes plainText in
  let n := N1 pubKey in
  (SetBytes [] = 0 /\
   forall buf b, SetBytes (buf ++ [b]) = SetBytes buf * 256 + byte_to_Z b) /\
  (EncryptWithNonce pubKey r plainText = Err ErrMessageTooLong <-> n <= m) /\
  (forall e, EncryptWithNonce pubKey r plainText = Err e -> e = ErrMessageTooLong) /\
  (NSquared pubKey = n * n -> m < n ->
   EncryptWithNonce pubKey r plainText =
   Ok ((((1 + m * n) mod (n * n)) * ((r ^ n) mod (n * n))) mod (n * n))) /\
  (forall plainText', SetBytes plainText' = m ->
     EncryptWithNonce pubKey r plainText' = EncryptWithNonce pubKey r plainText).
Proof.
  intros m n. repeat match goal with |- _ /\ _ => split end.
  - reflexivity.
  - apply SetBytes_snoc.
  - split; [|apply EncryptWithNonce_too_long].
    intros H. now apply EncryptWithNonce_error in H.
  - intros e H. now apply EncryptWithNonce_error in H.
  - intros Hsq Hm. now apply EncryptWithNonce_value.
  - intros plainText' E. unfold EncryptWithNonce. now rewrite E.
Qed.

Lemma EncryptWithNonce_contract_witness :
  EncryptWithNonce (pub key_29_31) 7 [x05] =
  Ok ((((1 + 5 * 899) mod (899 * 899)) * ((7 ^ 899) mod (899 * 899)))
      mod (899 * 899)).
Proof.
  pose proof (EncryptWithNonce_contract (pub key_29_31) 7 [x05]) as H.
  cbv zeta in H. destruct H as (_ & _ & _ & H & _).
  apply H; reflexivity.
Defined.

(** Two public key values whose [NSquared] is not the square of [N1 = 5]. *)
Definition key_5_0 : PublicKey := {| N1 := 5; G := 6; NSquared := 0 |}.

Definition key_5_7 : PublicKey := {| N1 := 5; G := 6; NSquared := 7 |}.

(** C2, as stated, fails for a public key whose [NSquared] is not the
    square of [N1]: with [N1 = 5] and [NSquared = 0] the reduction divides
    by zero, and with [NSquared = 7], [r = 2] and [m = 1] the result is 3,
    where the formula with the square of 5 gives 17. *)
Lemma EncryptWithNonce_contract_counterexample :
  (SetBytes [x01] < N1 key_5_0 /\
   EncryptWithNonce key_5_0 2 [x01] = Panic DivisionByZero) /\
  (SetBytes [x01] < N1 key_5_7 /\
   EncryptWithNonce key_5_7 2 [x01] = Ok 3 /\
   (((1 + 1 * 5) mod (5 * 5)) * ((2 ^ 5) mod (5 * 5))) mod (5 * 5) = 17).
Proof.
  repeat match goal with |- _ /\ _ => split end; reflexivity.
Qed.

(** C10 (amended).  [EncryptWithNonce] does not look at the nonce before
    using it: for every public key, any [r >= 0] (0 and values from [N1] on
    included) and any plaintext below [N1], it never returns an error; for a
    public key whose [NSquared] is the square of [N1] it returns the value
    of the encryption formula at that [r], which is 0 at [r = 0]. *)
Theorem EncryptWithNonce_any_nonce (pubKey : PublicKey) (r : Z)
  (plainText : list byte) :
  0 <= r ->
  SetBytes plainText < N1 pubKey ->
  (forall e, EncryptWithNonce pubKey r plainText <> Err e) /\
  (NSquared pubKey = N1 pubKey * N1 pubKey ->
   EncryptWithNonce pubKey r plainText =
   Ok ((((1 + SetBytes plainText * N1 pubKey) mod (N1 pubKey * N1 pubKey))
        * ((r ^ N1 pubKey) mod (N1 pubKey * N1 pubKey)))
       mod (N1 pubKey * N1 pubKey)) /\
   (r = 0 -> EncryptWithNonce pubKey r plainText = Ok 0)).
Proof.
  intros Hr Hm. pose proof (SetBytes_nonneg plainText) as H0. split.
  - intros e He. apply EncryptWithNonce_error in He. lia.
  - intros Hsq.
    rewrite (EncryptWithNonce_value pubKey r plainText Hsq Hm).
    split; [reflexivity|].
    intros ->. rewrite Z.pow_0_l by lia.
    rewrite (Z.mod_0_l (N1 pubKey * N1 pubKey)) by nia.
    now rewrite Z.mul_0_r, Z.mod_0_l by nia.
Qed.

Lemma EncryptWithNonce_any_nonce_witness :
  EncryptWithNonce (pub key_29_31) 0 [x05] = Ok 0 /\
  forall e, EncryptWithNonce (pub key_29_31) 900 [x05] <> Err e.
Proof.
  split.
  - apply (EncryptWithNonce_any_nonce (pub key_29_31) 0 [x05]);
      [discriminate|reflexivity|reflexivity|reflexivity].
  - apply (EncryptWithNonce_any_nonce (pub key_29_31) 900 [x05]);
      [discriminate|reflexivity].
Defined.

(** C10, as stated, fails for a public key whose [NSquared] is not the
    square of [N1]: with [N1 = 5] and [NSquared = 0] the call does not
    succeed for the nonce 0 and the plaintext 1, it divides by zero. *)
Lemma EncryptWithNonce_any_nonce_counterexample :
  0 <= 0 /\ SetBytes [x01] < N1 key_5_0 /\
  EncryptWithNonce key_5_0 0 [x01] = Panic DivisionByZero /\
  EncryptWithNonce key_5_0 7 [x01] = Panic DivisionByZero.
Proof.
  repeat match goal with |- _ /\ _ => split end;
    first [reflexivity|discriminate].
Qed.




(** C7 (amended).  Every key [GenerateKey] returns has [N1 = P*Q],
    [NSquared = N1*N1], [G = N1 + 1], [PP = P*P], [QQ = Q*Q],
    [Pminusone = P - 1], [Qminusone = Q - 1] and [N = N1], where [P] and [Q]
    are the two primes found.  When [P] and [Q] are distinct primes, [Pinvq]
    is the inverse of [P] modulo [Q]; when they are the same prime there is
    no inverse and [Pinvq] is nil. *)
Theorem GenerateKey_fields (primeP primeQ : outcome Z) (priv : PrivateKey) :
  GenerateKey primeP primeQ = Ok priv ->
  primeP = Ok (P priv) /\ primeQ = Ok (Q priv) /\
  N1 (pub priv) = P priv * Q priv /\
  NSquared (pub priv) = N1 (pub priv) * N1 (pub priv) /\
  G (pub priv) = N1 (pub priv) + 1 /\
  PP priv = P priv * P priv /\
  QQ priv = Q priv * Q priv /\
  Pminusone priv = P priv - 1 /\
  Qminusone priv = Q priv - 1 /\
  N priv = N1 (pub priv) /\
  (Z.prime (P priv) -> Z.prime (Q priv) -> P priv <> Q priv ->
   exists x, Pinvq priv = Some x /\ 0 <= x < Q priv /\
             (P priv * x) mod Q priv = 1) /\
  (Z.prime (P priv) -> P priv = Q priv -> Pinvq priv = None).
Proof.
  intros Hgen.
  destruct (GenerateKey_Ok primeP primeQ priv Hgen)
    as (p & q & hp & hq & -> & -> & ->).
  cbn [pub N1 NSquared G P PP Pminusone Q QQ Qminusone Pinvq N].
  repeat match goal with |- _ /\ _ => split end; try reflexivity.
  - intros Pp Pq Hne. pose proof (Z.prime_ge_2 _ Pq) as Hq2.
    destruct (ModInverse_coprime p q Hq2 (distinct_primes_coprime p q Pp Pq Hne))
      as [-> Hinv].
    exists (Z.invmod p q). split; [reflexivity|]. split.
    + rewrite <- Z.mod_invmod. apply Z.mod_pos_bound. lia.
    + now rewrite Z.mul_comm.
  - intros Pp <-. pose proof (Z.prime_ge_2 _ Pp) as Hp2.
    unfold ModInverse. rewrite Z.gcd_diag.
    destruct (Z.eqb_spec (Z.abs p) 1); [lia|reflexivity].
Qed.

Lemma GenerateKey_fields_witness :
  N1 (pub key_29_31) = 29 * 31 /\
  exists x, Pinvq key_29_31 = Some x /\ 0 <= x < 31 /\ (29 * x) mod 31 = 1.
Proof.
  destruct (GenerateKey_fields (Ok 29) (Ok 31) key_29_31 eq_refl)
    as (_ & _ & H1 & _ & _ & _ & _ & _ & _ & _ & H2 & _).
  split; [exact H1|].
  apply H2; [exact prime_29|exact prime_31|discriminate].
Defined.

(** C7, as stated, fails: asked for a 4-bit key, both prime searches return
    3; [GenerateKey] succeeds, 3 has no inverse modulo 3, and [Pinvq] is
    nil. *)
Lemma GenerateKey_fields_counterexample :
  rand_Prime_returns (Z.quot 4 2) 3 /\
  GenerateKey (Ok 3) (Ok 3) = Ok key_3_3 /\
  Pinvq key_3_3 = None /\
  (forall x, (P key_3_3 * x) mod Q key_3_3 <> 1).
Proof.
  split; [apply generated_3_3|]. split; [reflexivity|]. split; [reflexivity|].
  intros x. cbn [P Q key_3_3]. rewrite Z.mul_comm, Z.mod_mul by lia.
  discriminate.
Qed.

(** C9 (amended).  For every public key with [N1 <> 0] and
    [NSquared = N1*N1], and arbitrary byte sequences, [AddCipher], [Add] and
    [Mul] return, and the integer their result encodes lies in
    [0, NSquared); [Decrypt], under a private key that holds this public
    key, does not return an error on it. *)
Theorem homomorphic_results_in_range (pubKey : PublicKey)
  (cipher1 cipher2 constant : list byte) :
  N1 pubKey <> 0 ->
  NSquared pubKey = N1 pubKey * N1 pubKey ->
  (exists z, AddCipher pubKey cipher1 cipher2 = Ok z /\
             0 <= SetBytes z < NSquared pubKey) /\
  (exists z, Add pubKey cipher1 constant = Ok z /\
             0 <= SetBytes z < NSquared pubKey) /\
  (exists z, Mul pubKey cipher1 constant = Ok z /\
             0 <= SetBytes z < NSquared pubKey) /\
  (forall privKey z,
     pub privKey = pubKey ->
     AddCipher pubKey cipher1 cipher2 = Ok z \/
     Add pubKey cipher1 constant = Ok z \/
     Mul pubKey cipher1 constant = Ok z ->
     forall e, Decrypt privKey z <> Err e).
Proof.
  intros Hn Hsq.
  assert (Hn2 : 0 < NSquared pubKey) by (rewrite Hsq; nia).
  pose proof (SetBytes_nonneg constant) as Hk.
  assert (HA : exists z, AddCipher pubKey cipher1 cipher2 = Ok z /\
                         0 <= SetBytes z < NSquared pubKey).
  { unfold AddCipher. rewrite Mod_pos by assumption. cbn [bind].
    eexists. split; [reflexivity|].
    pose proof (Z.mod_pos_bound (SetBytes cipher1 * SetBytes cipher2)
                  (NSquared pubKey) Hn2).
    rewrite SetBytes_Bytes; lia. }
  assert (HB : exists z, Add pubKey cipher1 constant = Ok z /\
                         0 <= SetBytes z < NSquared pubKey).
  { unfold Add. rewrite Exp_pos by assumption. cbn [deref bind].
    rewrite Mod_pos by assumption. cbn [bind].
    eexists. split; [reflexivity|].
    match goal with |- context [Bytes (?x mod _)] =>
      pose proof (Z.mod_pos_bound x (NSquared pubKey) Hn2) end.
    rewrite SetBytes_Bytes; lia. }
  assert (HC : exists z, Mul pubKey cipher1 constant = Ok z /\
                         0 <= SetBytes z < NSquared pubKey).
  { unfold Mul. rewrite Exp_pos by assumption. cbn [deref bind].
    eexists. split; [reflexivity|].
    match goal with |- context [Bytes (?x mod _)] =>
      pose proof (Z.mod_pos_bound x (NSquared pubKey) Hn2) end.
    rewrite SetBytes_Bytes; lia. }
  repeat match goal with |- _ /\ _ => split end; try assumption.
  intros privKey z Hpub Hz e He.
  apply Decrypt_error in He. destruct He as [_ He]. rewrite Hpub in He.
  destruct HA as (za & Ea & Ra), HB as (zb & Eb & Rb), HC as (zc & Ec & Rc).
  destruct Hz as [Hz|[Hz|Hz]]; rewrite Hz in *.
  - injection Ea as ->. lia.
  - injection Eb as ->. lia.
  - injection Ec as ->. lia.
Qed.

Lemma homomorphic_results_in_range_witness :
  exists z, Mul (pub key_29_31) [x10; x00] [x03] = Ok z /\
            0 <= SetBytes z < NSquared (pub key_29_31).
Proof.
  apply (homomorphic_results_in_range (pub key_29_31) [x10; x00] [x00] [x03]);
    [discriminate|reflexivity].
Defined.

(** C9, as stated, fails at the modulus 0, whose square is 0: [Exp] with a
    zero modulus does not reduce, so [Mul] returns a result that is not
    below [NSquared] and [Decrypt] rejects it; [AddCipher] and [Add] divide
    by zero. *)
Lemma homomorphic_results_counterexample :
  NSquared (pub zero_key) = N1 (pub zero_key) * N1 (pub zero_key) /\
  Mul (pub zero_key) [x02] [x01] = Ok [x02] /\
  ~ SetBytes [x02] < NSquared (pub zero_key) /\
  Decrypt zero_key [x02] = Err ErrMessageTooLong /\
  AddCipher (pub zero_key) [x02] [x01] = Panic DivisionByZero /\
  Add (pub zero_key) [x02] [x01] = Panic DivisionByZero.
Proof.
  repeat match goal with |- _ /\ _ => split end; try reflexivity.
  discriminate.
Qed.

(** ** Round trip and homomorphisms

    What the ciphertext [EncryptWithNonce] returns looks like, for a
    generated key. *)
Lemma EncryptWithNonce_generated (bits p q : Z) (priv : PrivateKey)
  (plainText : list byte) (r : Z) :
  generated bits p q priv -> p <> q ->
  SetBytes plainText < N1 (pub priv) ->
  exists c, EncryptWithNonce (pub priv) r plainText = Ok c /\
            0 <= c < p * q * (p * q) /\
            encrypts (p * q) c (SetBytes plainText) r /\
            c mod (p * q) = (r ^ (p * q)) mod (p * q).
Proof.
  intros Hgen Hne Hm.
  destruct (generated_key bits p q priv Hgen Hne)
    as (Pp & Pq & Hk & Hn1 & Hsq & _ & Hn).
  rewrite EncryptWithNonce_value
    by first [assumption|rewrite Hsq, Hn1; reflexivity].
  rewrite Hn1. eexists. split; [reflexivity|].
  split; [apply mod_square_range; lia|].
  split; [apply encrypts_formula|apply cipher_mod_modulus].
Qed.

(** Decryption of a ciphertext made with a nonce prime to the modulus. *)
Lemma decrypt_round_trip (bits p q : Z) (priv : PrivateKey)
  (plainText : list byte) (r c : Z) :
  generated bits p q priv -> p <> q ->
  SetBytes plainText < N1 (pub priv) ->
  EncryptWithNonce (pub priv) r plainText = Ok c ->
  Z.coprime r (N1 (pub priv)) ->
  Decrypt priv (Bytes c) = Ok (Bytes (SetBytes plainText)).
Proof.
  intros Hgen Hne Hm Ec Hr.
  destruct (generated_key bits p q priv Hgen Hne)
    as (Pp & Pq & Hk & Hn1 & Hsq & _ & Hn).
  destruct (EncryptWithNonce_generated bits p q priv plainText r Hgen Hne Hm)
    as (c' & Ec' & Rc & Sc & _).
  rewrite Ec in Ec'. injection Ec' as <-.
  rewrite Hn1 in Hr, Hm.
  rewrite (Decrypt_shape p q priv c (SetBytes plainText) r) by assumption.
  pose proof (SetBytes_nonneg plainText).
  now rewrite Z.mod_small by lia.
Qed.

(** C1 (amended).  For every key [GenerateKey] builds from two distinct
    primes, every plaintext [m < N1] and every nonce [r] prime to [N1],
    encryption succeeds and [Decrypt] gives back [m]. *)
Theorem decrypt_encrypt (bits p q : Z) (priv : PrivateKey)
  (plainText : list byte) (r : Z) :
  generated bits p q priv -> p <> q ->
  SetBytes plainText < N1 (pub priv) ->
  Z.coprime r (N1 (pub priv)) ->
  exists c, EncryptWithNonce (pub priv) r plainText = Ok c /\
            Decrypt priv (Bytes c) = Ok (Bytes (SetBytes plainText)).
Proof.
  intros Hgen Hne Hm Hr.
  destruct (EncryptWithNonce_generated bits p q priv plainText r Hgen Hne Hm)
    as (c & Ec & _).
  exists c. split; [assumption|].
  now apply (decrypt_round_trip bits p q priv plainText r c).
Qed.

Lemma decrypt_encrypt_witness :
  exists c, EncryptWithNonce (pub key_29_31) 2 [x05] = Ok c /\
            Decrypt key_29_31 (Bytes c) = Ok (Bytes (SetBytes [x05])).
Proof.
  apply (decrypt_encrypt 10 29 31 key_29_31 [x05] 2);
    [exact generated_29_31|discriminate|reflexivity|reflexivity].
Defined.

(** C1, as stated, fails.  The nonce 0 lies in [0, N1) and encrypts every
    plaintext to 0, which decrypts to 15 under the key built from 29 and 31,
    not to the plaintext 5.  And the key built from the prime 3 taken twice
    has no decryption coefficients: [Decrypt] panics. *)
Lemma decrypt_encrypt_counterexample :
  (generated 10 29 31 key_29_31 /\
   SetBytes [x05] < N1 (pub key_29_31) /\ 0 <= 0 < N1 (pub key_29_31) /\
   EncryptWithNonce (pub key_29_31) 0 [x05] = Ok 0 /\
   Decrypt key_29_31 (Bytes 0) = Ok [x0f] /\
   [x0f] <> Bytes (SetBytes [x05])) /\
  (generated 4 3 3 key_3_3 /\
   SetBytes [x01] < N1 (pub key_3_3) /\ 0 <= 1 < N1 (pub key_3_3) /\
   EncryptWithNonce (pub key_3_3) 1 [x01] = Ok 10 /\
   Decrypt key_3_3 (Bytes 10) = Panic NilDereference).
Proof.
  split.
  - split; [exact generated_29_31|].
    repeat match goal with |- _ /\ _ => split end;
      first [reflexivity|discriminate].
  - split; [exact generated_3_3|].
    repeat match goal with |- _ /\ _ => split end;
      first [reflexivity|discriminate].
Qed.

(** C4 (amended).  For every key built from two distinct primes, plaintexts
    [m1, m2 < N1] and nonces [r1, r2]: [AddCipher] of the two ciphertexts is
    their product modulo [NSquared]; when both nonces are prime to [N1],
    [Decrypt] of it returns [(m1 + m2) mod N1]. *)
Theorem AddCipher_homomorphic (bits p q : Z) (priv : PrivateKey)
  (plainText1 plainText2 : list byte) (r1 r2 : Z) :
  generated bits p q priv -> p <> q ->
  SetBytes plainText1 < N1 (pub priv) ->
  SetBytes plainText2 < N1 (pub priv) ->
  exists c1 c2,
    EncryptWithNonce (pub priv) r1 plainText1 = Ok c1 /\
    EncryptWithNonce (pub priv) r2 plainText2 = Ok c2 /\
    AddCipher (pub priv) (Bytes c1) (Bytes c2)
    = Ok (Bytes ((c1 * c2) mod NSquared (pub priv))) /\
    (Z.coprime r1 (N1 (pub priv)) -> Z.coprime r2 (N1 (pub priv)) ->
     Decrypt priv (Bytes ((c1 * c2) mod NSquared (pub priv)))
     = Ok (Bytes ((SetBytes plainText1 + SetBytes plainText2)
                  mod N1 (pub priv)))).
Proof.
  intros Hgen Hne Hm1 Hm2.
  destruct (generated_key bits p q priv Hgen Hne)
    as (Pp & Pq & Hk & Hn1 & Hsq & _ & Hn).
  destruct (EncryptWithNonce_generated bits p q priv plainText1 r1 Hgen Hne Hm1)
    as (c1 & Ec1 & Rc1 & Sc1 & _).
  destruct (EncryptWithNonce_generated bits p q priv plainText2 r2 Hgen Hne Hm2)
    as (c2 & Ec2 & Rc2 & Sc2 & _).
  exists c1, c2. rewrite Hsq, Hn1.
  repeat match goal with |- _ /\ _ => split end; try assumption.
  - unfold AddCipher. rewrite !SetBytes_Bytes, Hsq by lia.
    now rewrite Mod_pos by nia.
  - intros Hr1 Hr2.
    apply (Decrypt_shape p q priv _ _ (r1 * r2)); try assumption.
    + apply mod_square_range. lia.
    + now apply Z.coprime_mul_l.
    + now apply encrypts_mul.
Qed.

Lemma AddCipher_homomorphic_witness :
  exists c1 c2,
    EncryptWithNonce (pub key_29_31) 2 [x05] = Ok c1 /\
    EncryptWithNonce (pub key_29_31) 3 [x09] = Ok c2 /\
    Decrypt key_29_31 (Bytes ((c1 * c2) mod NSquared (pub key_29_31)))
    = Ok (Bytes ((SetBytes [x05] + SetBytes [x09]) mod N1 (pub key_29_31))).
Proof.
  destruct (AddCipher_homomorphic 10 29 31 key_29_31 [x05] [x09] 2 3
              generated_29_31 ltac:(discriminate) eq_refl eq_refl)
    as (c1 & c2 & E1 & E2 & _ & HD).
  exists c1, c2. split; [exact E1|]. split; [exact E2|].
  apply HD; reflexivity.
Defined.

(** C4, as stated, fails at the nonce 0 (and at a key whose two primes are
    equal): the product of the ciphertexts is 0 and decrypts to 15, not to
    5 + 9. *)
Lemma AddCipher_homomorphic_counterexample :
  (generated 10 29 31 key_29_31 /\
   SetBytes [x05] < N1 (pub key_29_31) /\ SetBytes [x09] < N1 (pub key_29_31) /\
   0 <= 0 < N1 (pub key_29_31) /\ 0 <= 3 < N1 (pub key_29_31) /\
   EncryptWithNonce (pub key_29_31) 0 [x05] = Ok 0 /\
   EncryptWithNonce (pub key_29_31) 3 [x09] = Ok 685152 /\
   AddCipher (pub key_29_31) (Bytes 0) (Bytes 685152) = Ok (Bytes 0) /\
   Decrypt key_29_31 (Bytes 0) = Ok [x0f] /\
   [x0f] <> Bytes ((SetBytes [x05] + SetBytes [x09]) mod N1 (pub key_29_31))) /\
  (generated 4 3 3 key_3_3 /\
   EncryptWithNonce (pub key_3_3) 1 [x01] = Ok 10 /\
   AddCipher (pub key_3_3) (Bytes 10) (Bytes 10) = Ok (Bytes 19) /\
   Decrypt key_3_3 (Bytes 19) = Panic NilDereference).
Proof.
  split.
  - split; [exact generated_29_31|].
    repeat match goal with |- _ /\ _ => split end;
      first [reflexivity|discriminate].
  - split; [exact generated_3_3|].
    repeat match goal with |- _ /\ _ => split end; reflexivity.
Qed.

(** C5 (amended).  For every key built from two distinct primes, plaintext
    [m < N1], nonce [r] and constant [k >= 0] of any size: [Add] of the
    ciphertext and [k] is [cipher * (G^k mod NSquared) mod NSquared]; when
    [r] is prime to [N1], [Decrypt] of it returns [(m + k) mod N1]. *)
Theorem Add_homomorphic (bits p q : Z) (priv : PrivateKey)
  (plainText constant : list byte) (r : Z) :
  generated bits p q priv -> p <> q ->
  SetBytes plainText < N1 (pub priv) ->
  exists c,
    EncryptWithNonce (pub priv) r plainText = Ok c /\
    Add (pub priv) (Bytes c) constant
    = Ok (Bytes ((c * ((G (pub priv) ^ SetBytes constant)
                       mod NSquared (pub priv)))
                 mod NSquared (pub priv))) /\
    (Z.coprime r (N1 (pub priv)) ->
     Decrypt priv (Bytes ((c * ((G (pub priv) ^ SetBytes constant)
                                mod NSquared (pub priv)))
                          mod NSquared (pub priv)))
     = Ok (Bytes ((SetBytes plainText + SetBytes constant)
                  mod N1 (pub priv)))).
Proof.
  intros Hgen Hne Hm.
  destruct (generated_key bits p q priv Hgen Hne)
    as (Pp & Pq & Hk & Hn1 & Hsq & Hg & Hn).
  destruct (EncryptWithNonce_generated bits p q priv plainText r Hgen Hne Hm)
    as (c & Ec & Rc & Sc & _).
  pose proof (SetBytes_nonneg constant) as Hk0.
  exists c. rewrite Hsq, Hn1, Hg.
  repeat match goal with |- _ /\ _ => split end; try assumption.
  - unfold Add. rewrite SetBytes_Bytes, Hsq, Hg by lia.
    rewrite Exp_pos by nia. cbn [deref bind].
    now rewrite Mod_pos by nia.
  - intros Hr.
    apply (Decrypt_shape p q priv _ _ r); try assumption.
    + apply mod_square_range. lia.
    + now apply encrypts_add.
Qed.

Lemma Add_homomorphic_witness :
  exists c,
    EncryptWithNonce (pub key_29_31) 2 [x05] = Ok c /\
    Decrypt key_29_31
      (Bytes ((c * ((G (pub key_29_31) ^ SetBytes [x03; xe8])
                    mod NSquared (pub key_29_31)))
              mod NSquared (pub key_29_31)))
    = Ok (Bytes ((SetBytes [x05] + SetBytes [x03; xe8])
                 mod N1 (pub key_29_31))).
Proof.
  destruct (Add_homomorphic 10 29 31 key_29_31 [x05] [x03; xe8] 2
              generated_29_31 ltac:(discriminate) eq_refl)
    as (c & E & _ & HD).
  exists c. split; [exact E|]. apply HD. reflexivity.
Defined.

(** C5, as stated, fails at the nonce 0 (and at a key whose two primes are
    equal): the ciphertext is 0, [Add] returns 0, and that decrypts to 15,
    not to 5 + 3. *)
Lemma Add_homomorphic_counterexample :
  (generated 10 29 31 key_29_31 /\
   SetBytes [x05] < N1 (pub key_29_31) /\ 0 <= 0 < N1 (pub key_29_31) /\
   EncryptWithNonce (pub key_29_31) 0 [x05] = Ok 0 /\
   Add (pub key_29_31) (Bytes 0) [x03] = Ok (Bytes 0) /\
   Decrypt key_29_31 (Bytes 0) = Ok [x0f] /\
   [x0f] <> Bytes ((SetBytes [x05] + SetBytes [x03]) mod N1 (pub key_29_31))) /\
  (generated 4 3 3 key_3_3 /\
   EncryptWithNonce (pub key_3_3) 1 [x01] = Ok 10 /\
   Add (pub key_3_3) (Bytes 10) [x01] = Ok (Bytes 19) /\
   Decrypt key_3_3 (Bytes 19) = Panic NilDereference).
Proof.
  split.
  - split; [exact generated_29_31|].
    repeat match goal with |- _ /\ _ => split end;
      first [reflexivity|discriminate].
  - split; [exact generated_3_3|].
    repeat match goal with |- _ /\ _ => split end; reflexivity.
Qed.

(** C6 (amended).  For every key built from two distinct primes, plaintext
    [m < N1], nonce [r] and constant [k >= 0]: [Mul] of the ciphertext and
    [k] is [cipher^k mod NSquared]; when [r] is prime to [N1], [Decrypt] of
    it returns [(m * k) mod N1]. *)
Theorem Mul_homomorphic (bits p q : Z) (priv : PrivateKey)
  (plainText constant : list byte) (r : Z) :
  generated bits p q priv -> p <> q ->
  SetBytes plainText < N1 (pub priv) ->
  exists c,
    EncryptWithNonce (pub priv) r plainText = Ok c /\
    Mul (pub priv) (Bytes c) constant
    = Ok (Bytes ((c ^ SetBytes constant) mod NSquared (pub priv))) /\
    (Z.coprime r (N1 (pub priv)) ->
     Decrypt priv (Bytes ((c ^ SetBytes constant) mod NSquared (pub priv)))
     = Ok (Bytes ((SetBytes plainText * SetBytes constant)
                  mod N1 (pub priv)))).
Proof.
  intros Hgen Hne Hm.
  destruct (generated_key bits p q priv Hgen Hne)
    as (Pp & Pq & Hk & Hn1 & Hsq & _ & Hn).
  destruct (EncryptWithNonce_generated bits p q priv plainText r Hgen Hne Hm)
    as (c & Ec & Rc & Sc & _).
  pose proof (SetBytes_nonneg constant) as Hk0.
  exists c. rewrite Hsq, Hn1.
  repeat match goal with |- _ /\ _ => split end; try assumption.
  - unfold Mul. rewrite SetBytes_Bytes, Hsq by lia.
    now rewrite Exp_pos by nia.
  - intros Hr.
    apply (Decrypt_shape p q priv _ _ (r ^ SetBytes constant));
      try assumption.
    + apply mod_square_range. lia.
    + now apply Z.coprime_pow_l.
    + apply encrypts_pow; [lia|assumption|assumption].
Qed.

Lemma Mul_homomorphic_witness :
  exists c,
    EncryptWithNonce (pub key_29_31) 2 [x05] = Ok c /\
    Decrypt key_29_31
      (Bytes ((c ^ SetBytes [x03]) mod NSquared (pub key_29_31)))
    = Ok (Bytes ((SetBytes [x05] * SetBytes [x03]) mod N1 (pub key_29_31))).
Proof.
  destruct (Mul_homomorphic 10 29 31 key_29_31 [x05] [x03] 2
              generated_29_31 ltac:(discriminate) eq_refl)
    as (c & E & _ & HD).
  exists c. split; [exact E|]. apply HD. reflexivity.
Defined.

(** C6, as stated, fails at the nonce 0 (and at a key whose two primes are
    equal): the ciphertext of 7 is 0, its cube is 0, and that decrypts to
    15, not to 7 * 3 = 21. *)
Lemma Mul_homomorphic_counterexample :
  (generated 10 29 31 key_29_31 /\
   SetBytes [x07] < N1 (pub key_29_31) /\ 0 <= 0 < N1 (pub key_29_31) /\
   EncryptWithNonce (pub key_29_31) 0 [x07] = Ok 0 /\
   Mul (pub key_29_31) (Bytes 0) [x03] = Ok (Bytes 0) /\
   Decrypt key_29_31 (Bytes 0) = Ok [x0f] /\
   [x0f] <> Bytes ((SetBytes [x07] * SetBytes [x03]) mod N1 (pub key_29_31))) /\
  (generated 4 3 3 key_3_3 /\
   EncryptWithNonce (pub key_3_3) 1 [x01] = Ok 10 /\
   Mul (pub key_3_3) (Bytes 10) [x02] = Ok (Bytes 19) /\
   Decrypt key_3_3 (Bytes 19) = Panic NilDereference).
Proof.
  split.
  - split; [exact generated_29_31|].
    repeat match goal with |- _ /\ _ => split end;
      first [reflexivity|discriminate].
  - split; [exact generated_3_3|].
    repeat match goal with |- _ /\ _ => split end; reflexivity.
Qed.

(** C8 (amended).  For every key built from two distinct primes, plaintext
    [m < N1] and nonces [r1 <> r2] in [0, N1): the two ciphertexts differ,
    and each one whose nonce is prime to [N1] decrypts to [m]. *)
Theorem nonces_distinguish (bits p q : Z) (priv : PrivateKey)
  (plainText : list byte) (r1 r2 : Z) :
  generated bits p q priv -> p <> q ->
  SetBytes plainText < N1 (pub priv) ->
  0 <= r1 < N1 (pub priv) -> 0 <= r2 < N1 (pub priv) -> r1 <> r2 ->
  exists c1 c2,
    EncryptWithNonce (pub priv) r1 plainText = Ok c1 /\
    EncryptWithNonce (pub priv) r2 plainText = Ok c2 /\
    c1 <> c2 /\
    (Z.coprime r1 (N1 (pub priv)) ->
     Decrypt priv (Bytes c1) = Ok (Bytes (SetBytes plainText))) /\
    (Z.coprime r2 (N1 (pub priv)) ->
     Decrypt priv (Bytes c2) = Ok (Bytes (SetBytes plainText))).
Proof.
  intros Hgen Hne Hm Hr1 Hr2 Hr.
  destruct (generated_key bits p q priv Hgen Hne)
    as (Pp & Pq & Hk & Hn1 & Hsq & _ & Hn).
  destruct (EncryptWithNonce_generated bits p q priv plainText r1 Hgen Hne Hm)
    as (c1 & Ec1 & Rc1 & Sc1 & Mc1).
  destruct (EncryptWithNonce_generated bits p q priv plainText r2 Hgen Hne Hm)
    as (c2 & Ec2 & Rc2 & Sc2 & Mc2).
  exists c1, c2.
  repeat match goal with |- _ /\ _ => split end; try assumption.
  - intros E. apply Hr. rewrite Hn1 in Hr1, Hr2.
    destruct Hgen as (Rp & Rq & _).
    apply (pow_modulus_inj (Z.quot bits 2) p q); try assumption.
    now rewrite <- Mc1, <- Mc2, E.
  - intros C1. now apply (decrypt_round_trip bits p q priv plainText r1 c1).
  - intros C2. now apply (decrypt_round_trip bits p q priv plainText r2 c2).
Qed.

Lemma nonces_distinguish_witness :
  exists c1 c2,
    EncryptWithNonce (pub key_29_31) 2 [x05] = Ok c1 /\
    EncryptWithNonce (pub key_29_31) 3 [x05] = Ok c2 /\
    c1 <> c2 /\
    Decrypt key_29_31 (Bytes c1) = Ok (Bytes (SetBytes [x05])) /\
    Decrypt key_29_31 (Bytes c2) = Ok (Bytes (SetBytes [x05])).
Proof.
  destruct (nonces_distinguish 10 29 31 key_29_31 [x05] 2 3
              generated_29_31 ltac:(discriminate) eq_refl
              ltac:(split; [discriminate|reflexivity])
              ltac:(split; [discriminate|reflexivity])
              ltac:(discriminate))
    as (c1 & c2 & E1 & E2 & Hd & D1 & D2).
  exists c1, c2. split; [exact E1|]. split; [exact E2|]. split; [exact Hd|].
  split; [apply D1|apply D2]; reflexivity.
Defined.

(** C8, as stated, fails.  With the key built from 29 and 31 the nonces 0
    and 1 give distinct ciphertexts, but the one made with 0 decrypts to 15,
    not to the plaintext 5.  With the key built from the prime 3 taken twice
    the nonces 0 and 3 give the same ciphertext. *)
Lemma nonces_distinguish_counterexample :
  (generated 10 29 31 key_29_31 /\
   SetBytes [x05] < N1 (pub key_29_31) /\
   0 <= 0 < N1 (pub key_29_31) /\ 0 <= 1 < N1 (pub key_29_31) /\ 0 <> 1 /\
   EncryptWithNonce (pub key_29_31) 0 [x05] = Ok 0 /\
   EncryptWithNonce (pub key_29_31) 1 [x05] = Ok 4496 /\
   Decrypt key_29_31 (Bytes 0) = Ok [x0f] /\
   [x0f] <> Bytes (SetBytes [x05])) /\
  (generated 4 3 3 key_3_3 /\
   SetBytes [x01] < N1 (pub key_3_3) /\
   0 <= 0 < N1 (pub key_3_3) /\ 0 <= 3 < N1 (pub key_3_3) /\ 0 <> 3 /\
   EncryptWithNonce (pub key_3_3) 0 [x01] = Ok 0 /\
   EncryptWithNonce (pub key_3_3) 3 [x01] = Ok 0).
Proof.
  split.
  - split; [exact generated_29_31|].
    repeat match goal with |- _ /\ _ => split end;
      first [reflexivity|discriminate].
  - split; [exact generated_3_3|].
    repeat match goal with |- _ /\ _ => split end;
      first [reflexivity|discriminate].
Qed.

(** * Further properties of the package *)

(** ** Helpers *)

Lemma Mod_nonzero (x y : Z) :
  y <> 0 -> Mod x y = Ok (x mod Z.abs y) /\ 0 <= x mod Z.abs y < Z.abs y.
Proof.
  intros Hy. unfold Mod. destruct (Z.eqb_spec y 0); [contradiction|].
  split; [reflexivity|]. apply Z.mod_pos_bound. lia.
Qed.

Lemma Exp_nonzero (x y m : Z) :
  0 <= y -> m <> 0 -> Exp x y m = Some ((x ^ y) mod Z.abs m).
Proof.
  intros Hy Hm. unfold Exp.
  destruct (Z.ltb_spec y 0); [lia|].
  destruct (Z.eqb_spec m 0); [contradiction|reflexivity].
Qed.

Lemma no_error_h (p pp n : Z) : no_error (h p pp n).
Proof.
  unfold h, l. apply no_error_bind; [apply no_error_Mod|intros gp].
  apply no_error_bind; [apply no_error_Div|intros lp]. apply no_error_Ok.
Qed.

(** The second residue of the recombined value. *)
Lemma recombine_second (p q pinvq mp mq : Z) :
  0 < q -> (pinvq * p) mod q = 1 ->
  (mp + (((mq - mp) * pinvq) mod q) * p) mod q = mq mod q.
Proof.
  intros Hq Hi.
  rewrite Z.add_mod, Z.mul_mod_idemp_l, <- Z.add_mod by lia.
  pose proof (Z.div_mod (pinvq * p) q ltac:(lia)) as E. rewrite Hi in E.
  apply mod_eq_intro with (z := (mq - mp) * (pinvq * p / q)).
  set (k := pinvq * p / q) in *.
  replace ((mq - mp) * pinvq * p) with ((mq - mp) * (pinvq * p)) by ring.
  rewrite E. ring.
Qed.

(** ** Key generation *)

(** X1.  [GenerateKey] has no error of its own: it returns an error exactly
    when a prime search does, the error of the search for [Q] when that one
    fails (whatever the search for [P] did), and otherwise the error of the
    search for [P]. *)
Theorem GenerateKey_error (primeP primeQ : outcome Z) (e : error) :
  GenerateKey primeP primeQ = Err e <->
  primeQ = Err e \/ (exists q, primeQ = Ok q /\ primeP = Err e).
Proof.
  unfold GenerateKey. destruct primeQ as [q|eq|xq]; cbn [bind].
  - destruct primeP as [p|ep|xp]; cbn [bind].
    + split.
      * intros H. exfalso. revert H.
        match goal with |- ?c = Err e -> False => assert (Hn : no_error c) end.
        { apply no_error_bind; [apply no_error_h|intros hp].
          apply no_error_bind; [apply no_error_h|intros hq].
          apply no_error_Ok. }
        apply Hn.
      * intros [H|(q' & _ & H)]; discriminate H.
    + split.
      * intros [= ->]. right. exists q. auto.
      * intros [H|(q' & _ & H)]; [discriminate H|now injection H as ->].
    + split; [discriminate|].
      intros [H|(q' & _ & H)]; discriminate H.
  - split.
    + intros [= ->]. now left.
    + intros [H|(q' & H & _)]; [now injection H as ->|discriminate H].
  - split; [discriminate|].
    intros [H|(q' & H & _)]; discriminate H.
Qed.

(** X2.  The decryption coefficients of a key built from two primes: when
    the primes differ, [Hp] lies in [0, P) with [Hp * Q = -1] modulo [P],
    and [Hq] lies in [0, Q) with [Hq * P = -1] modulo [Q]; when the primes
    are equal, both are nil. *)
Theorem GenerateKey_coefficients (p q : Z) (priv : PrivateKey) :
  Z.prime p -> Z.prime q ->
  GenerateKey (Ok p) (Ok q) = Ok priv ->
  (p <> q ->
   exists hp hq,
     Hp priv = Some hp /\ Hq priv = Some hq /\
     0 <= hp < p /\ 0 <= hq < q /\
     (hp * q + 1) mod p = 0 /\ (hq * p + 1) mod q = 0) /\
  (p = q -> Hp priv = None /\ Hq priv = None).
Proof.
  intros primep primeq Hgen.
  pose proof (Z.prime_ge_2 _ primep) as Hp2.
  pose proof (Z.prime_ge_2 _ primeq) as Hq2.
  assert (Hneg : forall a b x, 1 < a -> (x * - b) mod a = 1 ->
                               (x * b + 1) mod a = 0).
  { intros a b x Ha Hx.
    pose proof (Z.div_mod (x * - b) a ltac:(lia)) as E. rewrite Hx in E.
    rewrite (mod_eq_intro a _ 0 (- (x * - b / a))) by lia.
    apply Z.mod_0_l. lia. }
  split.
  - intros Hne. rewrite GenerateKey_distinct in Hgen by assumption.
    injection Hgen as <-. cbn [Hp Hq].
    destruct (h_value p q (p * q) primep primeq Hne eq_refl) as [_ Hhp].
    destruct (h_value q p (p * q) primeq primep (not_eq_sym Hne)
                (Z.mul_comm p q)) as [_ Hhq].
    exists (Z.invmod (- q) p), (Z.invmod (- p) q).
    repeat match goal with |- _ /\ _ => split end; try reflexivity.
    + rewrite <- Z.mod_invmod. apply Z.mod_pos_bound. lia.
    + rewrite <- Z.mod_invmod. apply Z.mod_pos_bound. lia.
    + rewrite <- Z.mod_invmod. apply Z.mod_pos_bound. lia.
    + rewrite <- Z.mod_invmod. apply Z.mod_pos_bound. lia.
    + apply Hneg; [lia|assumption].
    + apply Hneg; [lia|assumption].
  - intros <-.
    assert (Hh : h p (p * p) (p * p) = Ok None).
    { unfold h, l, one. rewrite Mod_pos by nia. cbn [bind].
      rewrite (mod_eq_intro (p * p) (1 - p * p) 1 (-1)) by ring.
      rewrite Z.mod_small by nia. rewrite Div_pos by lia. cbn [bind].
      replace (1 - 1) with 0 by ring. rewrite Z.div_0_l by lia.
      unfold ModInverse. rewrite Z.gcd_0_l.
      destruct (Z.eqb_spec (Z.abs p) 1); [lia|reflexivity]. }
    unfold GenerateKey in Hgen. cbn [bind] in Hgen.
    rewrite Hh in Hgen. cbn [bind] in Hgen.
    injection Hgen as <-. cbn [Hp Hq]. auto.
Qed.

Lemma GenerateKey_coefficients_witness :
  exists hp hq,
    Hp key_29_31 = Some hp /\ Hq key_29_31 = Some hq /\
    0 <= hp < 29 /\ 0 <= hq < 31 /\
    (hp * 31 + 1) mod 29 = 0 /\ (hq * 29 + 1) mod 31 = 0.
Proof.
  apply (GenerateKey_coefficients 29 31 key_29_31 prime_29 prime_31 eq_refl).
  discriminate.
Defined.

(** ** The helpers [l] and [crt] *)

(** X3.  The division in [l] is exact where [Decrypt] uses it on a
    ciphertext that the prime [P] does not divide: [c^(P-1) mod P^2] is
    [1 + k*P] with [0 <= k < P], and [l] returns that [k].  When [P >= 3]
    divides [c] the power is 0 and [l] returns -1. *)
Theorem l_exact (p c : Z) :
  Z.prime p ->
  (c mod p <> 0 ->
   exists k, l ((c ^ (p - 1)) mod (p * p)) p = Ok k /\
             k * p + 1 = (c ^ (p - 1)) mod (p * p) /\ 0 <= k < p) /\
  (3 <= p -> c mod p = 0 ->
   (c ^ (p - 1)) mod (p * p) = 0 /\ l ((c ^ (p - 1)) mod (p * p)) p = Ok (-1)).
Proof.
  intros primep. pose proof (Z.prime_ge_2 _ primep) as Hp2. split.
  - intros Hc. set (u := (c ^ (p - 1)) mod (p * p)).
    assert (Hu : 0 <= u < p * p) by (apply Z.mod_pos_bound; nia).
    assert (Hu1 : u mod p = 1).
    { unfold u. rewrite Z.mod_mod_divide by (exists p; ring).
      now apply Z.fermat_nz. }
    pose proof (Z.div_mod u p ltac:(lia)) as E. rewrite Hu1 in E.
    exists (u / p). unfold l, one. rewrite Div_pos by lia.
    assert (Hk : 0 <= u / p < p).
    { split; [apply Z.div_pos; lia|apply Z.div_lt_upper_bound; lia]. }
    repeat match goal with |- _ /\ _ => split end; try lia.
    f_equal. replace (u - 1) with (u / p * p) by lia.
    apply Z.div_mul. lia.
  - intros Hp3 Hc.
    assert (H0 : (c ^ (p - 1)) mod (p * p) = 0).
    { apply Z.mod_divide in Hc; [|lia]. destruct Hc as [t ->].
      replace (p - 1) with (2 + (p - 3)) by ring.
      rewrite Z.pow_add_r by lia.
      apply Z.mod_divide; [nia|].
      exists (t * t * (t * p) ^ (p - 3)). ring. }
    split; [assumption|]. rewrite H0. unfold l, one.
    rewrite Div_pos by lia. f_equal.
    replace (0 - 1) with (-1) by ring.
    symmetry. apply (Z.div_unique_pos (-1) p (-1) (p - 1)); lia.
Qed.

Lemma l_exact_witness :
  exists k, l ((2 ^ (29 - 1)) mod (29 * 29)) 29 = Ok k /\
            k * 29 + 1 = (2 ^ (29 - 1)) mod (29 * 29) /\ 0 <= k < 29.
Proof.
  apply (l_exact 29 2 prime_29). discriminate.
Defined.

(** X4.  With a key built from two distinct primes, [crt] returns the one
    integer of [0, N) that has the residue of [mp] modulo [P] and the
    residue of [mq] modulo [Q]. *)
Theorem crt_recombines (p q : Z) (priv : PrivateKey) (mp mq : Z) :
  Z.prime p -> Z.prime q -> p <> q ->
  GenerateKey (Ok p) (Ok q) = Ok priv ->
  exists m, crt mp mq priv = Ok m /\
            0 <= m < p * q /\ m mod p = mp mod p /\ m mod q = mq mod q /\
            forall m', 0 <= m' < p * q -> m' mod p = mp mod p ->
                       m' mod q = mq mod q -> m' = m.
Proof.
  intros primep primeq Hne Hgen.
  pose proof (Z.prime_ge_2 _ primep) as Hp2.
  pose proof (Z.prime_ge_2 _ primeq) as Hq2.
  rewrite GenerateKey_distinct in Hgen by assumption.
  injection Hgen as <-.
  pose proof (distinct_primes_coprime p q primep primeq Hne) as Hpq.
  destruct (ModInverse_coprime p q Hq2 Hpq) as [_ Hinv].
  assert (Hn : 0 < p * q) by nia.
  unfold crt. cbn [Pinvq Q P N deref bind].
  repeat (rewrite Mod_pos by lia; cbn [bind]).
  eexists. split; [reflexivity|].
  set (x := mp + ((mq - mp) * Z.invmod p q) mod q * p).
  assert (H1 : (x mod (p * q)) mod p = mp mod p).
  { rewrite Z.mod_mod_divide by apply Z.divide_factor_l.
    unfold x. apply Z_mod_plus_full. }
  assert (H2 : (x mod (p * q)) mod q = mq mod q).
  { rewrite Z.mod_mod_divide by apply Z.divide_factor_r.
    unfold x. apply recombine_second; [lia|assumption]. }
  repeat match goal with |- _ /\ _ => split end; try assumption;
    try (apply Z.mod_pos_bound; lia).
  intros m' Hm' E1 E2.
  rewrite <- (Z.mod_small m' (p * q)) by assumption.
  rewrite <- (Zmod_mod x).
  apply mod_mul_unique; try lia; try assumption; congruence.
Qed.

Lemma crt_recombines_witness :
  exists m, crt 5 12 key_29_31 = Ok m /\
            0 <= m < 29 * 31 /\ m mod 29 = 5 mod 29 /\ m mod 31 = 12 mod 31 /\
            forall m', 0 <= m' < 29 * 31 -> m' mod 29 = 5 mod 29 ->
                       m' mod 31 = 12 mod 31 -> m' = m.
Proof.
  apply (crt_recombines 29 31 key_29_31 5 12 prime_29 prime_31);
    [discriminate|reflexivity].
Defined.

(** ** Ranges of what encryption and decryption return *)

Lemma Decrypt_by_value (privKey : PrivateKey) (a b : list byte) :
  SetBytes a = SetBytes b -> Decrypt privKey a = Decrypt privKey b.
Proof. intros E. unfold Decrypt. now rewrite E. Qed.

Lemma Decrypt_reduced (p q : Z) (priv : PrivateKey) (cipherText : list byte) :
  Z.prime p -> Z.prime q -> p <> q ->
  GenerateKey (Ok p) (Ok q) = Ok priv ->
  SetBytes cipherText < NSquared (pub priv) ->
  exists x, Decrypt priv cipherText = Ok (Bytes (x mod (p * q))).
Proof.
  intros primep primeq Hne Hgen Hc.
  pose proof (Z.prime_ge_2 _ primep) as Hp2.
  pose proof (Z.prime_ge_2 _ primeq) as Hq2.
  pose proof (SetBytes_nonneg cipherText) as H0.
  rewrite GenerateKey_distinct in Hgen by assumption.
  injection Hgen as <-. cbn [pub NSquared] in Hc.
  assert (Hn : 0 < p * q) by nia.
  assert (Hpp : 0 < p * p) by nia.
  assert (Hqq : 0 < q * q) by nia.
  unfold Decrypt. cbn [pub NSquared Pminusone PP P Hp Qminusone QQ Q Hq].
  rewrite Cmp_lt_1.
  destruct (Z.leb_spec (p * q * (p * q)) (SetBytes cipherText)); [lia|].
  rewrite !Exp_pos by lia. cbn [deref bind]. unfold l, one.
  rewrite !Div_pos by lia. cbn [bind].
  rewrite !Mod_pos by lia. cbn [bind].
  unfold crt. cbn [Pinvq Q P N deref bind].
  repeat (rewrite Mod_pos by lia; cbn [bind]).
  eexists. reflexivity.
Qed.

(** X5.  With a key built from two distinct primes, whatever [Decrypt]
    returns for a ciphertext below [NSquared] encodes an integer below the
    modulus, so [EncryptWithNonce] accepts it again as a plaintext. *)
Theorem Decrypt_below_modulus (bits p q : Z) (priv : PrivateKey)
  (cipherText : list byte) :
  generated bits p q priv -> p <> q ->
  SetBytes cipherText < NSquared (pub priv) ->
  exists plainText,
    Decrypt priv cipherText = Ok plainText /\
    0 <= SetBytes plainText < N1 (pub priv) /\
    forall r, exists c, EncryptWithNonce (pub priv) r plainText = Ok c.
Proof.
  intros Hgen Hne Hc.
  destruct (generated_key bits p q priv Hgen Hne)
    as (Pp & Pq & Hk & Hn1 & Hsq & _ & Hn).
  destruct (Decrypt_reduced p q priv cipherText Pp Pq Hne Hk Hc) as [x Hx].
  pose proof (Z.mod_pos_bound x (p * q) Hn) as Hr.
  exists (Bytes (x mod (p * q))). split; [assumption|].
  rewrite SetBytes_Bytes, Hn1 by lia. split; [assumption|].
  intros r. eexists. apply EncryptWithNonce_value.
  - now rewrite Hsq, Hn1.
  - rewrite SetBytes_Bytes, Hn1; lia.
Qed.

Lemma Decrypt_below_modulus_witness :
  exists plainText,
    Decrypt key_29_31 [xff; xff] = Ok plainText /\
    0 <= SetBytes plainText < N1 (pub key_29_31) /\
    forall r, exists c, EncryptWithNonce (pub key_29_31) r plainText = Ok c.
Proof.
  apply (Decrypt_below_modulus 10 29 31 key_29_31 [xff; xff]);
    [exact generated_29_31|discriminate|reflexivity].
Defined.

(** X6.  For a public key whose [NSquared] is the square of [N1], every
    ciphertext [EncryptWithNonce] returns lies in [0, NSquared), whatever the
    nonce; its bytes read back as the same integer, and [Decrypt] under a
    private key holding this public key never answers them with an error. *)
Theorem EncryptWithNonce_in_range (pubKey : PublicKey) (r : Z)
  (plainText : list byte) :
  NSquared pubKey = N1 pubKey * N1 pubKey ->
  SetBytes plainText < N1 pubKey ->
  exists c, EncryptWithNonce pubKey r plainText = Ok c /\
            0 <= c < NSquared pubKey /\
            SetBytes (Bytes c) = c /\
            forall privKey e, pub privKey = pubKey ->
                              Decrypt privKey (Bytes c) <> Err e.
Proof.
  intros Hsq Hm. pose proof (SetBytes_nonneg plainText) as H0.
  rewrite (EncryptWithNonce_value pubKey r plainText Hsq Hm).
  eexists. split; [reflexivity|].
  match goal with |- context [SetBytes (Bytes ?c)] => set (c0 := c) end.
  assert (Hc : 0 <= c0 < NSquared pubKey).
  { rewrite Hsq. apply mod_square_range. lia. }
  split; [assumption|]. split; [apply SetBytes_Bytes; lia|].
  intros privKey e Hpub He. apply Decrypt_error in He.
  rewrite Hpub, SetBytes_Bytes in He; lia.
Qed.

Lemma EncryptWithNonce_in_range_witness :
  exists c, EncryptWithNonce (pub key_3_3) 0 [x08] = Ok c /\
            0 <= c < NSquared (pub key_3_3) /\
            SetBytes (Bytes c) = c /\
            forall privKey e, pub privKey = pub key_3_3 ->
                              Decrypt privKey (Bytes c) <> Err e.
Proof.
  apply (EncryptWithNonce_in_range (pub key_3_3) 0 [x08]); reflexivity.
Defined.

(** ** [EncryptAndNonce] and [Encrypt] *)

(** X7.  [EncryptAndNonce] draws the nonce before it looks at the plaintext:
    an error of the random source is returned as it is, even for a plaintext
    that is too long; once a nonce is drawn, the only error is
    [ErrMessageTooLong], returned exactly when the plaintext is at least
    [N1].  [Encrypt] fails in the same cases with the same errors. *)
Theorem EncryptAndNonce_errors (pubKey : PublicKey) (nonce : outcome Z)
  (plainText : list byte) :
  (forall e, nonce = Err e ->
             EncryptAndNonce pubKey nonce plainText = Err e /\
             Encrypt pubKey nonce plainText = Err e) /\
  (forall r, nonce = Ok r ->
             (EncryptAndNonce pubKey nonce plainText = Err ErrMessageTooLong
              <-> N1 pubKey <= SetBytes plainText) /\
             (Encrypt pubKey nonce plainText = Err ErrMessageTooLong
              <-> N1 pubKey <= SetBytes plainText)) /\
  (forall e, Encrypt pubKey nonce plainText = Err e <->
             EncryptAndNonce pubKey nonce plainText = Err e) /\
  (forall e, EncryptAndNonce pubKey nonce plainText = Err e ->
             nonce = Err e \/
             (e = ErrMessageTooLong /\ N1 pubKey <= SetBytes plainText)).
Proof.
  assert (Hwrap : forall e, Encrypt pubKey nonce plainText = Err e <->
                            EncryptAndNonce pubKey nonce plainText = Err e).
  { intros e. unfold Encrypt.
    destruct (EncryptAndNonce pubKey nonce plainText) as [cr|e'|x];
      cbn [bind]; split; intros H; try discriminate H;
      injection H as ->; reflexivity. }
  assert (Hdrawn : forall r e, nonce = Ok r ->
            (EncryptAndNonce pubKey nonce plainText = Err e <->
             EncryptWithNonce pubKey r plainText = Err e)).
  { intros r e ->. unfold EncryptAndNonce. cbn [bind].
    destruct (EncryptWithNonce pubKey r plainText) as [c|e'|x];
      cbn [bind]; split; intros H; try discriminate H;
      injection H as ->; reflexivity. }
  repeat match goal with |- _ /\ _ => split end.
  - intros e ->. split; [reflexivity|]. now apply Hwrap.
  - intros r Hr.
    assert (H1 : EncryptAndNonce pubKey nonce plainText = Err ErrMessageTooLong
                 <-> N1 pubKey <= SetBytes plainText).
    { rewrite (Hdrawn r _ Hr). split.
      - intros H. now apply EncryptWithNonce_error in H.
      - apply EncryptWithNonce_too_long. }
    split; [exact H1|]. now rewrite Hwrap.
  - exact Hwrap.
  - intros e He. destruct nonce as [r|e'|x].
    + right. apply (Hdrawn r e eq_refl) in He.
      now apply EncryptWithNonce_error in He.
    + left. unfold EncryptAndNonce in He. cbn [bind] in He.
      now injection He as ->.
    + discriminate He.
Qed.

(** X8.  With a key built from two distinct primes and a drawn nonce prime
    to the modulus, [EncryptAndNonce] returns the ciphertext together with
    that nonce, [Encrypt] returns the same ciphertext, and [Decrypt] turns it
    back into the plaintext integer. *)
Theorem Encrypt_Decrypt (bits p q : Z) (priv : PrivateKey)
  (plainText : list byte) (r : Z) :
  generated bits p q priv -> p <> q ->
  SetBytes plainText < N1 (pub priv) ->
  Z.coprime r (N1 (pub priv)) ->
  exists cipherText,
    EncryptAndNonce (pub priv) (Ok r) plainText = Ok (cipherText, r) /\
    Encrypt (pub priv) (Ok r) plainText = Ok cipherText /\
    Decrypt priv cipherText = Ok (Bytes (SetBytes plainText)).
Proof.
  intros Hgen Hne Hm Hr.
  destruct (EncryptWithNonce_generated bits p q priv plainText r Hgen Hne Hm)
    as (c & Ec & _).
  exists (Bytes c). unfold Encrypt, EncryptAndNonce. cbn [bind].
  rewrite Ec. cbn [bind fst].
  repeat match goal with |- _ /\ _ => split end; try reflexivity.
  now apply (decrypt_round_trip bits p q priv plainText r c).
Qed.

Lemma Encrypt_Decrypt_witness :
  exists cipherText,
    EncryptAndNonce (pub key_29_31) (Ok 7) [x01; x00] = Ok (cipherText, 7) /\
    Encrypt (pub key_29_31) (Ok 7) [x01; x00] = Ok cipherText /\
    Decrypt key_29_31 cipherText = Ok (Bytes (SetBytes [x01; x00])).
Proof.
  apply (Encrypt_Decrypt 10 29 31 key_29_31 [x01; x00] 7);
    [exact generated_29_31|discriminate|reflexivity|reflexivity].
Defined.

(** ** Plaintexts as byte strings *)

Lemma byte_of_to_Z (b : byte) : byte_of_Z (byte_to_Z b) = b.
Proof.
  unfold byte_of_Z, byte_to_Z. now rewrite N2Z.id, Byte.of_to_N.
Qed.

Lemma byte_to_Z_zero (b : byte) : byte_to_Z b = 0 -> b = x00.
Proof.
  intros H. rewrite <- (byte_of_to_Z b), H. reflexivity.
Qed.

Lemma SetBytes_leading_zero (buf : list byte) :
  SetBytes (x00 :: buf) = SetBytes buf.
Proof. reflexivity. Qed.

Lemma value_lower_bound (ds : list byte) :
  last ds x01 <> x00 -> ds <> [] ->
  2 ^ (Z.of_nat (List.length ds) - 1) <= value ds.
Proof.
  induction ds as [|b ds IH]; intros Hl Hne; [contradiction|].
  pose proof (byte_to_Z_range b) as Hb.
  destruct ds as [|b' ds'].
  - cbn. cbn in Hl. destruct (Z.eq_dec (byte_to_Z b) 0) as [E|]; [|lia].
    apply byte_to_Z_zero in E. contradiction.
  - specialize (IH Hl ltac:(discriminate)).
    change (value (b :: b' :: ds')) with (value (b' :: ds') * 256 + byte_to_Z b).
    replace (Z.of_nat (List.length (b :: b' :: ds')) - 1)
      with (Z.succ (Z.of_nat (List.length (b' :: ds')) - 1))
      by (cbn [List.length]; lia).
    rewrite Z.pow_succ_r by (cbn [List.length]; lia). lia.
Qed.

Lemma digits_value (ds : list byte) :
  last ds x01 <> x00 ->
  forall fuel, (List.length ds <= fuel)%nat -> digits fuel (value ds) = ds.
Proof.
  induction ds as [|b ds IH]; intros Hl fuel Hf.
  - destruct fuel; reflexivity.
  - destruct fuel as [|fuel]; [cbn in Hf; lia|].
    pose proof (byte_to_Z_range b) as Hb.
    pose proof (value_nonneg ds) as Hv.
    assert (Hl' : last ds x01 <> x00) by (destruct ds; [discriminate|exact Hl]).
    assert (Hnz : value (b :: ds) <> 0).
    { pose proof (value_lower_bound (b :: ds) Hl ltac:(discriminate)) as H.
      assert (0 < 2 ^ (Z.of_nat (List.length (b :: ds)) - 1))
        by (apply Z.pow_pos_nonneg; cbn [List.length]; lia).
      lia. }
    cbn [digits]. destruct (Z.eqb_spec (value (b :: ds)) 0); [contradiction|].
    change (value (b :: ds)) with (value ds * 256 + byte_to_Z b).
    rewrite Z.add_comm, Z.mod_add, Z.div_add by lia.
    rewrite Z.mod_small, Z.div_small, Z.add_0_l by lia.
    rewrite byte_of_to_Z, IH; [reflexivity|assumption|cbn in Hf; lia].
Qed.

Lemma Bytes_SetBytes_minimal (buf : list byte) :
  hd x01 buf <> x00 -> Bytes (SetBytes buf) = buf.
Proof.
  intros Hh. pose proof (SetBytes_nonneg buf) as H0.
  assert (Hl : last (rev buf) x01 <> x00).
  { destruct buf as [|b rest]; [discriminate|].
    cbn [rev]. now rewrite last_last. }
  unfold Bytes. rewrite Z.abs_eq by assumption.
  rewrite <- (rev_involutive buf) at 1 2. rewrite SetBytes_rev.
  rewrite digits_value; [apply rev_involutive|assumption|].
  destruct buf as [|b rest]; [cbn; lia|].
  pose proof (value_lower_bound (rev (b :: rest)) Hl) as Hlow.
  assert (Hne : rev (b :: rest) <> []).
  { cbn [rev]. intros E. now apply app_eq_nil in E. }
  specialize (Hlow Hne).
  assert (Hpos : 0 < value (rev (b :: rest))).
  { assert (0 < 2 ^ (Z.of_nat (List.length (rev (b :: rest))) - 1)); [|lia].
    apply Z.pow_pos_nonneg; [lia|].
    rewrite length_rev. cbn [List.length]. lia. }
  apply Z.log2_le_pow2 in Hlow; [|assumption].
  pose proof (Z.log2_nonneg (value (rev (b :: rest)))). lia.
Qed.

(** [Bytes] after [SetBytes] removes the leading zero bytes, nothing else. *)
Lemma Bytes_SetBytes (buf : list byte) : Bytes (SetBytes buf) = trim buf.
Proof.
  induction buf as [|b rest IH]; [reflexivity|].
  cbn [trim]. destruct (Byte.eqb b x00) eqn:E.
  - apply Byte.byte_dec_bl in E. subst b.
    now rewrite SetBytes_leading_zero.
  - apply Bytes_SetBytes_minimal. cbn [hd]. now apply Byte.eqb_false.
Qed.

Lemma length_trim (buf : list byte) :
  (List.length (trim buf) <= List.length buf)%nat.
Proof.
  induction buf as [|b rest IH]; [cbn; lia|].
  cbn [trim]. destruct (Byte.eqb b x00); cbn [List.length] in *; lia.
Qed.

Lemma trim_fixed (buf : list byte) : trim buf = buf <-> hd x01 buf <> x00.
Proof.
  destruct buf as [|b rest]; [split; [discriminate|reflexivity]|].
  cbn [trim hd]. destruct (Byte.eqb b x00) eqn:E.
  - apply Byte.byte_dec_bl in E. subst b. split; [|contradiction].
    intros H _. pose proof (f_equal (@List.length byte) H) as Hlen.
    pose proof (length_trim rest). cbn [List.length] in Hlen. lia.
  - split; [|reflexivity]. intros _. now apply Byte.eqb_false.
Qed.

(** X9.  The byte round trip drops leading zero bytes and nothing else: with
    a key built from two distinct primes and a nonce prime to the modulus,
    decrypting the encryption of [plainText] returns [plainText] without its
    leading zero bytes, which is [plainText] itself exactly when its first
    byte is not zero; the same plaintext with one more leading zero byte has
    the same ciphertext. *)
Theorem Decrypt_trims_plaintext (bits p q : Z) (priv : PrivateKey)
  (plainText : list byte) (r : Z) :
  generated bits p q priv -> p <> q ->
  SetBytes plainText < N1 (pub priv) ->
  Z.coprime r (N1 (pub priv)) ->
  exists c,
    EncryptWithNonce (pub priv) r plainText = Ok c /\
    EncryptWithNonce (pub priv) r (x00 :: plainText) = Ok c /\
    Decrypt priv (Bytes c) = Ok (trim plainText) /\
    (Decrypt priv (Bytes c) = Ok plainText <-> hd x01 plainText <> x00).
Proof.
  intros Hgen Hne Hm Hr.
  destruct (EncryptWithNonce_generated bits p q priv plainText r Hgen Hne Hm)
    as (c & Ec & _).
  pose proof (decrypt_round_trip bits p q priv plainText r c Hgen Hne Hm Ec Hr)
    as Hd.
  rewrite Bytes_SetBytes in Hd.
  exists c. repeat match goal with |- _ /\ _ => split end; try assumption.
  rewrite Hd. split.
  - intros H. injection H as H. now apply trim_fixed.
  - intros H. f_equal. now apply trim_fixed.
Qed.

Lemma Decrypt_trims_plaintext_witness :
  exists c,
    EncryptWithNonce (pub key_29_31) 2 [x00; x00; x05] = Ok c /\
    EncryptWithNonce (pub key_29_31) 2 [x00; x00; x00; x05] = Ok c /\
    Decrypt key_29_31 (Bytes c) = Ok (trim [x00; x00; x05]) /\
    (Decrypt key_29_31 (Bytes c) = Ok [x00; x00; x05]
     <-> hd x01 [x00; x00; x05] <> x00).
Proof.
  apply (Decrypt_trims_plaintext 10 29 31 key_29_31 [x00; x00; x05] 2);
    [exact generated_29_31|discriminate|reflexivity|reflexivity].
Defined.

(** ** The homomorphic operations as an algebra on byte strings *)

Lemma SetBytes_Bytes_mod (x m : Z) :
  m <> 0 -> SetBytes (Bytes (x mod Z.abs m)) = x mod Z.abs m.
Proof.
  intros Hm. apply SetBytes_Bytes. apply Z.mod_pos_bound. lia.
Qed.

Lemma AddCipher_value (pubKey : PublicKey) (cipher1 cipher2 : list byte) :
  NSquared pubKey <> 0 ->
  AddCipher pubKey cipher1 cipher2 =
  Ok (Bytes ((SetBytes cipher1 * SetBytes cipher2) mod Z.abs (NSquared pubKey))).
Proof.
  intros Hn. unfold AddCipher.
  destruct (Mod_nonzero (SetBytes cipher1 * SetBytes cipher2) _ Hn) as [-> _].
  reflexivity.
Qed.

Lemma Add_value (pubKey : PublicKey) (cipher constant : list byte) :
  NSquared pubKey <> 0 ->
  Add pubKey cipher constant =
  Ok (Bytes ((SetBytes cipher
              * ((G pubKey ^ SetBytes constant) mod Z.abs (NSquared pubKey)))
             mod Z.abs (NSquared pubKey))).
Proof.
  intros Hn. unfold Add.
  rewrite Exp_nonzero by (apply SetBytes_nonneg || assumption).
  cbn [deref bind].
  match goal with |- context [Mod ?x _] =>
    destruct (Mod_nonzero x _ Hn) as [-> _] end.
  reflexivity.
Qed.

Lemma Mul_value (pubKey : PublicKey) (cipher constant : list byte) :
  NSquared pubKey <> 0 ->
  Mul pubKey cipher constant =
  Ok (Bytes ((SetBytes cipher ^ SetBytes constant) mod Z.abs (NSquared pubKey))).
Proof.
  intros Hn. unfold Mul.
  rewrite Exp_nonzero by (apply SetBytes_nonneg || assumption).
  reflexivity.
Qed.

Lemma AddCipher_zero_modulus (pubKey : PublicKey) (cipher1 cipher2 : list byte) :
  NSquared pubKey = 0 ->
  AddCipher pubKey cipher1 cipher2 = Panic DivisionByZero.
Proof. intros Hn. unfold AddCipher, Mod. now rewrite Hn. Qed.

Lemma Add_zero_modulus (pubKey : PublicKey) (cipher constant : list byte) :
  NSquared pubKey = 0 ->
  Add pubKey cipher constant = Panic DivisionByZero.
Proof.
  intros Hn. unfold Add, Exp, Mod. rewrite Hn.
  pose proof (SetBytes_nonneg constant).
  destruct (Z.ltb_spec (SetBytes constant) 0); [lia|reflexivity].
Qed.

Lemma Mul_zero_modulus (pubKey : PublicKey) (cipher constant : list byte) :
  NSquared pubKey = 0 ->
  Mul pubKey cipher constant = Ok (Bytes (SetBytes cipher ^ SetBytes constant)).
Proof.
  intros Hn. unfold Mul, Exp. rewrite Hn.
  pose proof (SetBytes_nonneg constant).
  destruct (Z.ltb_spec (SetBytes constant) 0); [lia|reflexivity].
Qed.

(** X10.  For a public key with [NSquared = N1*N1] and [G = N1 + 1], adding
    a constant below the modulus is the same as [AddCipher] with the
    encryption of that constant under the nonce 1. *)
Theorem Add_as_AddCipher (pubKey : PublicKey) (cipher constant : list byte) :
  NSquared pubKey = N1 pubKey * N1 pubKey ->
  G pubKey = N1 pubKey + 1 ->
  SetBytes constant < N1 pubKey ->
  Add pubKey cipher constant =
  (e <- EncryptWithNonce pubKey 1 constant ;;
   AddCipher pubKey cipher (Bytes e)).
Proof.
  intros Hsq Hg Hk. pose proof (SetBytes_nonneg constant) as Hk0.
  assert (Hn2 : 0 < N1 pubKey * N1 pubKey) by nia.
  assert (Hnz : NSquared pubKey <> 0) by lia.
  rewrite EncryptWithNonce_value by assumption. cbn [bind].
  rewrite Add_value, AddCipher_value by assumption.
  rewrite Hsq, Hg, Z.abs_eq by lia.
  rewrite SetBytes_Bytes by (apply Z.mod_pos_bound; lia).
  do 2 f_equal. apply mul_mod_compat; [reflexivity|].
  rewrite !Zmod_mod.
  replace (N1 pubKey + 1) with (1 + N1 pubKey * 1) by ring.
  rewrite pow_one_plus by assumption.
  rewrite <- (Z.mul_1_r (1 + N1 pubKey * (SetBytes constant * 1))).
  apply mul_mod_compat.
  - rewrite Zmod_mod. f_equal. ring.
  - now rewrite Zmod_mod, Z.pow_1_l by lia.
Qed.

Lemma Add_as_AddCipher_witness :
  Add (pub key_29_31) [x12; x34] [x03] =
  (e <- EncryptWithNonce (pub key_29_31) 1 [x03] ;;
   AddCipher (pub key_29_31) [x12; x34] (Bytes e)).
Proof.
  apply (Add_as_AddCipher (pub key_29_31) [x12; x34] [x03]); reflexivity.
Defined.

(** X11.  For a public key with [NSquared = N1*N1], [G = N1 + 1] and
    [N1 <> 0], [Add] uses its constant modulo [N1] only: two constants with
    the same residue give the same result. *)
Theorem Add_constant_modulo (pubKey : PublicKey)
  (cipher constant1 constant2 : list byte) :
  NSquared pubKey = N1 pubKey * N1 pubKey ->
  G pubKey = N1 pubKey + 1 ->
  N1 pubKey <> 0 ->
  SetBytes constant1 mod N1 pubKey = SetBytes constant2 mod N1 pubKey ->
  Add pubKey cipher constant1 = Add pubKey cipher constant2.
Proof.
  intros Hsq Hg Hn Hk.
  assert (Hnz : NSquared pubKey <> 0) by (rewrite Hsq; nia).
  pose proof (SetBytes_nonneg constant1). pose proof (SetBytes_nonneg constant2).
  rewrite !Add_value by assumption. do 3 f_equal.
  rewrite Hsq, Hg, Z.abs_eq by nia.
  replace (N1 pubKey + 1) with (1 + N1 pubKey * 1) by ring.
  rewrite !pow_one_plus by assumption.
  pose proof (Z.div_mod (SetBytes constant1) (N1 pubKey) Hn) as E1.
  pose proof (Z.div_mod (SetBytes constant2) (N1 pubKey) Hn) as E2.
  f_equal.
  apply mod_eq_intro
    with (z := SetBytes constant1 / N1 pubKey - SetBytes constant2 / N1 pubKey).
  set (k1 := SetBytes constant1) in *. set (k2 := SetBytes constant2) in *.
  set (d1 := k1 / N1 pubKey) in *. set (d2 := k2 / N1 pubKey) in *.
  rewrite Hk in E1. set (t := k2 mod N1 pubKey) in *.
  rewrite E1, E2. ring.
Qed.

Lemma Add_constant_modulo_witness :
  Add (pub key_29_31) [x12; x34] [x05] = Add (pub key_29_31) [x12; x34] [x03; x88].
Proof.
  apply (Add_constant_modulo (pub key_29_31) [x12; x34] [x05] [x03; x88]);
    [reflexivity|reflexivity|discriminate|reflexivity].
Defined.

(** X12.  For every public key, [AddCipher] is commutative and associative
    on byte strings. *)
Theorem AddCipher_comm_assoc (pubKey : PublicKey) (a b c : list byte) :
  AddCipher pubKey a b = AddCipher pubKey b a /\
  (x <- AddCipher pubKey a b ;; AddCipher pubKey x c) =
  (y <- AddCipher pubKey b c ;; AddCipher pubKey a y).
Proof.
  split.
  - unfold AddCipher. now rewrite Z.mul_comm.
  - destruct (Z.eq_dec (NSquared pubKey) 0) as [Hz|Hn].
    + now rewrite !(AddCipher_zero_modulus pubKey) by assumption.
    + rewrite (AddCipher_value pubKey a b), (AddCipher_value pubKey b c)
        by assumption.
      cbn [bind]. rewrite !AddCipher_value by assumption.
      rewrite !SetBytes_Bytes_mod by assumption. do 2 f_equal.
      rewrite Z.mul_mod_idemp_l, Z.mul_mod_idemp_r by lia.
      f_equal. ring.
Qed.

Lemma mod_mul_chain (M c x y : Z) :
  ((c * (x mod M)) mod M * (y mod M)) mod M = (c * ((x * y) mod M)) mod M.
Proof.
  rewrite <- (Zmult_mod (c * (x mod M)) y M).
  rewrite (mul_mod_compat M (c * (x mod M)) (c * x) y y
             (Zmult_mod_idemp_r x c M) eq_refl).
  rewrite Zmult_mod_idemp_r. f_equal. ring.
Qed.

(** X13.  For every public key, adding two constants one after the other is
    adding their sum. *)
Theorem Add_Add (pubKey : PublicKey) (cipher constant1 constant2 : list byte) :
  (x <- Add pubKey cipher constant1 ;; Add pubKey x constant2) =
  Add pubKey cipher (Bytes (SetBytes constant1 + SetBytes constant2)).
Proof.
  pose proof (SetBytes_nonneg constant1) as H1.
  pose proof (SetBytes_nonneg constant2) as H2.
  destruct (Z.eq_dec (NSquared pubKey) 0) as [Hz|Hn].
  - now rewrite !(Add_zero_modulus pubKey) by assumption.
  - rewrite (Add_value pubKey cipher constant1) by assumption. cbn [bind].
    rewrite !Add_value by assumption.
    rewrite SetBytes_Bytes_mod by assumption.
    rewrite SetBytes_Bytes by lia. do 2 f_equal.
    rewrite Z.pow_add_r by assumption. apply mod_mul_chain.
Qed.

(** X14.  For every public key, multiplying by two constants one after the
    other is multiplying by their product. *)
Theorem Mul_Mul (pubKey : PublicKey) (cipher constant1 constant2 : list byte) :
  (x <- Mul pubKey cipher constant1 ;; Mul pubKey x constant2) =
  Mul pubKey cipher (Bytes (SetBytes constant1 * SetBytes constant2)).
Proof.
  pose proof (SetBytes_nonneg constant1) as H1.
  pose proof (SetBytes_nonneg constant2) as H2.
  pose proof (SetBytes_nonneg cipher) as H0.
  destruct (Z.eq_dec (NSquared pubKey) 0) as [Hz|Hn].
  - rewrite (Mul_zero_modulus pubKey cipher constant1) by assumption.
    cbn [bind]. rewrite !Mul_zero_modulus by assumption.
    rewrite !SetBytes_Bytes by (try apply Z.pow_nonneg; nia).
    now rewrite Z.pow_mul_r by assumption.
  - rewrite (Mul_value pubKey cipher constant1) by assumption. cbn [bind].
    rewrite !Mul_value by assumption.
    rewrite SetBytes_Bytes_mod by assumption.
    rewrite SetBytes_Bytes by nia. do 2 f_equal.
    now rewrite Z.mod_pow_l, Z.pow_mul_r by assumption.
Qed.

(** X15.  For every public key, [Mul] distributes over [AddCipher]. *)
Theorem Mul_AddCipher (pubKey : PublicKey) (a b constant : list byte) :
  (x <- AddCipher pubKey a b ;; Mul pubKey x constant) =
  (x <- Mul pubKey a constant ;;
   y <- Mul pubKey b constant ;;
   AddCipher pubKey x y).
Proof.
  destruct (Z.eq_dec (NSquared pubKey) 0) as [Hz|Hn].
  - rewrite (AddCipher_zero_modulus pubKey a b) by assumption.
    rewrite !(Mul_zero_modulus pubKey) by assumption. cbn [bind].
    now rewrite AddCipher_zero_modulus by assumption.
  - rewrite (AddCipher_value pubKey a b) by assumption.
    rewrite !(Mul_value pubKey _ constant) by assumption. cbn [bind].
    rewrite Mul_value, AddCipher_value by assumption.
    rewrite !SetBytes_Bytes_mod by assumption. do 2 f_equal.
    rewrite Z.mod_pow_l, Z.pow_mul_l. apply Zmult_mod.
Qed.

(** ** Chaining homomorphic operations *)

Lemma EncryptWithNonce_closed (bits p q : Z) (priv : PrivateKey)
  (plainText : list byte) (r c : Z) :
  generated bits p q priv -> p <> q ->
  SetBytes plainText < N1 (pub priv) ->
  Z.coprime r (N1 (pub priv)) ->
  EncryptWithNonce (pub priv) r plainText = Ok c ->
  ciphertext_of priv (Bytes c) (SetBytes plainText).
Proof.
  intros Hgen Hne Hm Hr Ec.
  destruct (generated_key bits p q priv Hgen Hne)
    as (Pp & Pq & Hk & Hn1 & Hsq & _ & Hn).
  destruct (EncryptWithNonce_generated bits p q priv plainText r Hgen Hne Hm)
    as (c' & Ec' & Rc & Sc & _).
  rewrite Ec in Ec'. injection Ec' as <-.
  unfold ciphertext_of. rewrite SetBytes_Bytes, Hsq, Hn1 by lia.
  split; [lia|]. exists r. split; [now rewrite <- Hn1|assumption].
Qed.

Lemma AddCipher_closed (bits p q : Z) (priv : PrivateKey)
  (cipher1 cipher2 : list byte) (m1 m2 : Z) :
  generated bits p q priv -> p <> q ->
  ciphertext_of priv cipher1 m1 -> ciphertext_of priv cipher2 m2 ->
  exists z, AddCipher (pub priv) cipher1 cipher2 = Ok z /\
            ciphertext_of priv z (m1 + m2).
Proof.
  intros Hgen Hne (_ & s1 & Hs1 & E1) (_ & s2 & Hs2 & E2).
  destruct (generated_key bits p q priv Hgen Hne)
    as (Pp & Pq & Hk & Hn1 & Hsq & _ & Hn).
  assert (Hnz : NSquared (pub priv) <> 0) by (rewrite Hsq; nia).
  rewrite AddCipher_value by assumption. eexists. split; [reflexivity|].
  unfold ciphertext_of. rewrite SetBytes_Bytes_mod by assumption.
  split; [pose proof (Z.mod_pos_bound (SetBytes cipher1 * SetBytes cipher2)
                        (Z.abs (NSquared (pub priv)))); lia|].
  exists (s1 * s2). split; [now apply Z.coprime_mul_l|].
  rewrite Hsq, Z.abs_eq, <- Hn1 by nia. now apply encrypts_mul.
Qed.

Lemma Add_closed (bits p q : Z) (priv : PrivateKey)
  (cipher constant : list byte) (m : Z) :
  generated bits p q priv -> p <> q ->
  ciphertext_of priv cipher m ->
  exists z, Add (pub priv) cipher constant = Ok z /\
            ciphertext_of priv z (m + SetBytes constant).
Proof.
  intros Hgen Hne (_ & s & Hs & E).
  destruct (generated_key bits p q priv Hgen Hne)
    as (Pp & Pq & Hk & Hn1 & Hsq & Hg & Hn).
  assert (Hnz : NSquared (pub priv) <> 0) by (rewrite Hsq; nia).
  rewrite Add_value by assumption. eexists. split; [reflexivity|].
  unfold ciphertext_of. rewrite SetBytes_Bytes_mod by assumption.
  split; [match goal with |- ?x mod _ < _ =>
            pose proof (Z.mod_pos_bound x (Z.abs (NSquared (pub priv)))) end;
          lia|].
  exists s. split; [assumption|].
  rewrite Hsq, Z.abs_eq, Hg, <- Hn1 by nia.
  apply encrypts_add; [apply SetBytes_nonneg|assumption].
Qed.

Lemma Mul_closed (bits p q : Z) (priv : PrivateKey)
  (cipher constant : list byte) (m : Z) :
  generated bits p q priv -> p <> q ->
  ciphertext_of priv cipher m ->
  exists z, Mul (pub priv) cipher constant = Ok z /\
            ciphertext_of priv z (m * SetBytes constant).
Proof.
  intros Hgen Hne (_ & s & Hs & E).
  destruct (generated_key bits p q priv Hgen Hne)
    as (Pp & Pq & Hk & Hn1 & Hsq & _ & Hn).
  assert (Hnz : NSquared (pub priv) <> 0) by (rewrite Hsq; nia).
  pose proof (SetBytes_nonneg constant) as Hk0.
  rewrite Mul_value by assumption. eexists. split; [reflexivity|].
  unfold ciphertext_of. rewrite SetBytes_Bytes_mod by assumption.
  split; [match goal with |- ?x mod _ < _ =>
            pose proof (Z.mod_pos_bound x (Z.abs (NSquared (pub priv)))) end;
          lia|].
  exists (s ^ SetBytes constant).
  split; [now apply Z.coprime_pow_l|].
  rewrite Hsq, Z.abs_eq, <- Hn1 by nia.
  apply encrypts_pow; [lia|assumption|assumption].
Qed.

Lemma Decrypt_closed (bits p q : Z) (priv : PrivateKey)
  (cipherText : list byte) (m : Z) :
  generated bits p q priv -> p <> q ->
  ciphertext_of priv cipherText m ->
  Decrypt priv cipherText = Ok (Bytes (m mod N1 (pub priv))).
Proof.
  intros Hgen Hne (Hc & s & Hs & E).
  destruct (generated_key bits p q priv Hgen Hne)
    as (Pp & Pq & Hk & Hn1 & Hsq & _ & Hn).
  pose proof (SetBytes_nonneg cipherText) as H0.
  rewrite (Decrypt_by_value priv cipherText (Bytes (SetBytes cipherText)))
    by (now rewrite SetBytes_Bytes).
  rewrite Hn1 in *. rewrite Hsq in Hc.
  now apply (Decrypt_shape p q priv _ m s).
Qed.

(** X16.  With a key built from two distinct primes, the ciphertexts are
    closed under the three homomorphic operations, whatever operations made
    the arguments: [AddCipher] of ciphertexts of [m1] and [m2] is a
    ciphertext of [m1 + m2], [Add] of a ciphertext of [m] and [k] is one of
    [m + k], and [Mul] is one of [m * k]. *)
Theorem homomorphic_closure (bits p q : Z) (priv : PrivateKey)
  (cipher1 cipher2 constant : list byte) (m1 m2 : Z) :
  generated bits p q priv -> p <> q ->
  ciphertext_of priv cipher1 m1 -> ciphertext_of priv cipher2 m2 ->
  (exists z, AddCipher (pub priv) cipher1 cipher2 = Ok z /\
             ciphertext_of priv z (m1 + m2)) /\
  (exists z, Add (pub priv) cipher1 constant = Ok z /\
             ciphertext_of priv z (m1 + SetBytes constant)) /\
  (exists z, Mul (pub priv) cipher1 constant = Ok z /\
             ciphertext_of priv z (m1 * SetBytes constant)).
Proof.
  intros Hgen Hne H1 H2. split; [|split].
  - now apply (AddCipher_closed bits p q).
  - now apply (Add_closed bits p q).
  - now apply (Mul_closed bits p q).
Qed.

(** The byte string 01 is a ciphertext of 0, and 1 + N one of 1. *)
Lemma ciphertext_one : ciphertext_of key_29_31 [x01] 0.
Proof.
  split; [reflexivity|]. exists 1. split; reflexivity.
Qed.

Lemma ciphertext_generator : ciphertext_of key_29_31 [x03; x84] 1.
Proof.
  split; [reflexivity|]. exists 1. split; reflexivity.
Qed.

Lemma homomorphic_closure_witness :
  (exists z, AddCipher (pub key_29_31) [x03; x84] [x01] = Ok z /\
             ciphertext_of key_29_31 z (1 + 0)) /\
  (exists z, Add (pub key_29_31) [x03; x84] [x07] = Ok z /\
             ciphertext_of key_29_31 z (1 + SetBytes [x07])) /\
  (exists z, Mul (pub key_29_31) [x03; x84] [x07] = Ok z /\
             ciphertext_of key_29_31 z (1 * SetBytes [x07])).
Proof.
  apply (homomorphic_closure 10 29 31 key_29_31 [x03; x84] [x01] [x07] 1 0);
    [exact generated_29_31|discriminate|exact ciphertext_generator
    |exact ciphertext_one].
Defined.

(** X17.  With a key built from two distinct primes, what
    [EncryptWithNonce] makes with a nonce prime to the modulus is a
    ciphertext of the plaintext, and [Decrypt] of any ciphertext of [m]
    returns [m mod N1]. *)
Theorem Decrypt_ciphertext (bits p q : Z) (priv : PrivateKey)
  (plainText cipherText : list byte) (r m : Z) :
  generated bits p q priv -> p <> q ->
  (SetBytes plainText < N1 (pub priv) -> Z.coprime r (N1 (pub priv)) ->
   exists c, EncryptWithNonce (pub priv) r plainText = Ok c /\
             ciphertext_of priv (Bytes c) (SetBytes plainText)) /\
  (ciphertext_of priv cipherText m ->
   Decrypt priv cipherText = Ok (Bytes (m mod N1 (pub priv)))).
Proof.
  intros Hgen Hne. split.
  - intros Hm Hr.
    destruct (EncryptWithNonce_generated bits p q priv plainText r Hgen Hne Hm)
      as (c & Ec & _).
    exists c. split; [assumption|].
    now apply (EncryptWithNonce_closed bits p q priv plainText r c).
  - now apply (Decrypt_closed bits p q).
Qed.

Lemma Decrypt_ciphertext_witness :
  Decrypt key_29_31 [x03; x84] = Ok (Bytes (1 mod N1 (pub key_29_31))).
Proof.
  apply (Decrypt_ciphertext 10 29 31 key_29_31 [] [x03; x84] 1 1
           generated_29_31 ltac:(discriminate)).
  exact ciphertext_generator.
Defined.

(** X18.  A weighted sum computed on ciphertexts: with a key built from two
    distinct primes, multiplying a ciphertext of [m1] by [k], adding a
    ciphertext of [m2] and then the constant [j] succeeds, and the result
    decrypts to [(m1*k + m2 + j) mod N1]. *)
Theorem weighted_sum (bits p q : Z) (priv : PrivateKey)
  (cipher1 cipher2 k j : list byte) (m1 m2 : Z) :
  generated bits p q priv -> p <> q ->
  ciphertext_of priv cipher1 m1 -> ciphertext_of priv cipher2 m2 ->
  exists z,
    (x <- Mul (pub priv) cipher1 k ;;
     y <- AddCipher (pub priv) x cipher2 ;;
     Add (pub priv) y j) = Ok z /\
    Decrypt priv z
    = Ok (Bytes ((m1 * SetBytes k + m2 + SetBytes j) mod N1 (pub priv))).
Proof.
  intros Hgen Hne H1 H2.
  destruct (Mul_closed bits p q priv cipher1 k m1 Hgen Hne H1)
    as (x & -> & Hx).
  destruct (AddCipher_closed bits p q priv x cipher2 _ _ Hgen Hne Hx H2)
    as (y & Ey & Hy).
  destruct (Add_closed bits p q priv y j _ Hgen Hne Hy) as (z & Ez & Hz).
  exists z. cbn [bind]. rewrite Ey. cbn [bind]. split; [assumption|].
  now apply (Decrypt_closed bits p q).
Qed.

Lemma weighted_sum_witness :
  exists z,
    (x <- Mul (pub key_29_31) [x03; x84] [x05] ;;
     y <- AddCipher (pub key_29_31) x [x03; x84] ;;
     Add (pub key_29_31) y [x02]) = Ok z /\
    Decrypt key_29_31 z
    = Ok (Bytes ((1 * SetBytes [x05] + 1 + SetBytes [x02])
                 mod N1 (pub key_29_31))).
Proof.
  apply (weighted_sum 10 29 31 key_29_31 [x03; x84] [x03; x84] [x05] [x02] 1 1);
    [exact generated_29_31|discriminate|exact ciphertext_generator
    |exact ciphertext_generator].
Defined.

(** ** Empty and neutral arguments *)

(** X19.  For a public key with [NSquared <> 0], the empty byte string (the
    integer 0) absorbs: [AddCipher] with an empty argument on either side,
    [Add] on an empty ciphertext and [Mul] of an empty ciphertext by a
    non-zero constant all return the empty byte string. *)
Theorem empty_cipher_absorbs (pubKey : PublicKey) (cipher constant : list byte) :
  NSquared pubKey <> 0 ->
  AddCipher pubKey [] cipher = Ok [] /\
  AddCipher pubKey cipher [] = Ok [] /\
  Add pubKey [] constant = Ok [] /\
  (0 < SetBytes constant -> Mul pubKey [] constant = Ok []).
Proof.
  intros Hn. assert (Hm : Z.abs (NSquared pubKey) <> 0) by lia.
  repeat match goal with |- _ /\ _ => split end.
  - rewrite AddCipher_value by assumption. change (SetBytes []) with 0.
    now rewrite Z.mul_0_l, Z.mod_0_l.
  - rewrite AddCipher_value by assumption. change (SetBytes []) with 0.
    now rewrite Z.mul_0_r, Z.mod_0_l.
  - rewrite Add_value by assumption. change (SetBytes []) with 0.
    now rewrite Z.mul_0_l, Z.mod_0_l.
  - intros Hk. rewrite Mul_value by assumption. change (SetBytes []) with 0.
    now rewrite Z.pow_0_l, Z.mod_0_l.
Qed.

Lemma empty_cipher_absorbs_witness :
  AddCipher (pub key_29_31) [] [x03; x84] = Ok [] /\
  AddCipher (pub key_29_31) [x03; x84] [] = Ok [] /\
  Add (pub key_29_31) [] [x02] = Ok [] /\
  (0 < SetBytes [x02] -> Mul (pub key_29_31) [] [x02] = Ok []).
Proof.
  apply (empty_cipher_absorbs (pub key_29_31) [x03; x84] [x02]). discriminate.
Defined.

(** X20.  For a public key with [NSquared <> 0] and a ciphertext below
    [|NSquared|], adding the empty constant, multiplying by the constant 1
    and [AddCipher] with the byte string 01 all return the ciphertext
    without its leading zero bytes; multiplying by the empty constant
    returns the bytes of [1 mod |NSquared|], whatever the ciphertext. *)
Theorem neutral_constants (pubKey : PublicKey) (cipher : list byte) :
  NSquared pubKey <> 0 ->
  SetBytes cipher < Z.abs (NSquared pubKey) ->
  Add pubKey cipher [] = Ok (trim cipher) /\
  Mul pubKey cipher [x01] = Ok (trim cipher) /\
  AddCipher pubKey cipher [x01] = Ok (trim cipher) /\
  forall cipher', Mul pubKey cipher' []
                  = Ok (Bytes (1 mod Z.abs (NSquared pubKey))).
Proof.
  intros Hn Hc. pose proof (SetBytes_nonneg cipher) as H0.
  assert (Hm : Z.abs (NSquared pubKey) <> 0) by lia.
  rewrite <- Bytes_SetBytes.
  repeat match goal with |- _ /\ _ => split end.
  - rewrite Add_value by assumption. do 2 f_equal.
    change (SetBytes []) with 0.
    rewrite Z.pow_0_r, Z.mul_mod_idemp_r, Z.mul_1_r by assumption.
    apply Z.mod_small. lia.
  - rewrite Mul_value by assumption. do 2 f_equal.
    change (SetBytes [x01]) with 1. rewrite Z.pow_1_r.
    apply Z.mod_small. lia.
  - rewrite AddCipher_value by assumption. do 2 f_equal.
    change (SetBytes [x01]) with 1. rewrite Z.mul_1_r.
    apply Z.mod_small. lia.
  - intros cipher'. rewrite Mul_value by assumption.
    change (SetBytes []) with 0. now rewrite Z.pow_0_r.
Qed.

Lemma neutral_constants_witness :
  Add (pub key_29_31) [x00; x03; x84] [] = Ok (trim [x00; x03; x84]) /\
  Mul (pub key_29_31) [x00; x03; x84] [x01] = Ok (trim [x00; x03; x84]) /\
  AddCipher (pub key_29_31) [x00; x03; x84] [x01] = Ok (trim [x00; x03; x84]) /\
  forall cipher', Mul (pub key_29_31) cipher' []
                  = Ok (Bytes (1 mod Z.abs (NSquared (pub key_29_31)))).
Proof.
  apply (neutral_constants (pub key_29_31) [x00; x03; x84]);
    [discriminate|reflexivity].
Defined.

(** ** Size of the modulus *)

(** X21.  The modulus of a key [GenerateKey(random, bits)] returns has
    exactly [2 * (bits/2)] bits, because both primes have their two top bits
    set; so every plaintext of fewer bits is accepted by
    [EncryptWithNonce]. *)
Theorem modulus_bit_length (bits p q : Z) (priv : PrivateKey) :
  generated bits p q priv ->
  2 ^ (2 * Z.quot bits 2 - 1) <= N1 (pub priv) < 2 ^ (2 * Z.quot bits 2) /\
  Z.log2 (N1 (pub priv)) = 2 * Z.quot bits 2 - 1 /\
  forall r plainText,
    SetBytes plainText < 2 ^ (2 * Z.quot bits 2 - 1) ->
    exists c, EncryptWithNonce (pub priv) r plainText = Ok c.
Proof.
  intros ((Hb & Pp & Hp) & (_ & Pq & Hq) & Hgen).
  destruct (GenerateKey_Ok _ _ _ Hgen) as (p' & q' & hp & hq & Ep & Eq & ->).
  injection Ep as <-. injection Eq as <-. cbn [pub N1].
  set (b := Z.quot bits 2) in *.
  set (B := 2 ^ (b - 2)) in *.
  assert (HB : 0 < B) by (apply Z.pow_pos_nonneg; lia).
  assert (H1 : 2 ^ b = 4 * B).
  { unfold B. replace b with (2 + (b - 2)) at 1 by ring.
    now rewrite Z.pow_add_r by lia. }
  assert (H2 : 2 ^ (2 * b) = 16 * (B * B)).
  { replace (2 * b) with (b + b) by ring.
    rewrite Z.pow_add_r, H1 by lia. ring. }
  assert (H3 : 2 ^ (2 * b - 1) = 8 * (B * B)).
  { assert (E : 2 ^ (2 * b) = 2 * 2 ^ (2 * b - 1)).
    { replace (2 * b) with (Z.succ (2 * b - 1)) at 1 by ring.
      apply Z.pow_succ_r. lia. }
    lia. }
  assert (Hrange : 2 ^ (2 * b - 1) <= p * q < 2 ^ (2 * b))
    by (rewrite H2, H3; nia).
  split; [assumption|]. split.
  - apply Z.log2_unique; [lia|].
    now replace (Z.succ (2 * b - 1)) with (2 * b) by ring.
  - intros r plainText Hm. eexists.
    apply EncryptWithNonce_value; cbn [N1 NSquared]; [reflexivity|lia].
Qed.

Lemma modulus_bit_length_witness :
  2 ^ (2 * Z.quot 10 2 - 1) <= N1 (pub key_29_31) < 2 ^ (2 * Z.quot 10 2) /\
  Z.log2 (N1 (pub key_29_31)) = 2 * Z.quot 10 2 - 1 /\
  forall r plainText,
    SetBytes plainText < 2 ^ (2 * Z.quot 10 2 - 1) ->
    exists c, EncryptWithNonce (pub key_29_31) r plainText = Ok c.
Proof.
  apply (modulus_bit_length 10 29 31 key_29_31). exact generated_29_31.
Defined.
